(** * zero-compress: the acceleration primitives of [src/wasm/accel.c]

    A shallow embedding of the four C functions of the module
    ([fast_crc32], [fast_memcmp], [find_pattern], [calculate_entropy])
    and the properties their specification states about them.

    Conventions of the embedding.
    - A [const uint8_t*] is the list of the valid bytes that start at the
      pointer; [p + i] is [drop i p]; a read outside the valid bytes has no
      defined result, and the function that performs it returns [None].
    - [uint32_t] and [uint64_t] values are integers of [Z] with the
      wrap-around written where the C arithmetic can reach it.
    - [size_t] lengths and loop indices are natural numbers.  A buffer of
      valid bytes is a C object, hence no longer than [PTRDIFF_MAX], so that
      no index the source forms ([i + 8] at most eight past the length)
      wraps.  The width of [size_t] matters for the [(size_t)-1] sentinel
      and for [unique_count] only and is a field of the compilation target.
    - A [uint64_t] is loaded from any address, as WebAssembly and x86 do;
      its byte order is a field of the compilation target.
    - A counted loop [for (i = i0; i < n; i++)] is a recursion on the number
      of iterations that remain, carrying the index [i]. *)

From Stdlib Require Import ZArith Lia Strings.Byte Strings.String Reals Lra.
From Stdlib Require Import Floats Uint63.
From stdpp Require Import base option list.

Local Open Scope Z_scope.

(** ** Compilation targets

    Three things the source leaves to the C implementation decide what the
    functions return: whether [__SSE4_2__] is defined, the byte order
    of a [uint64_t] load, and the width of [size_t]. *)

Inductive byte_order := LittleEndian | BigEndian.

Record target := Target {
  sse4_2 : bool;          (* is [__SSE4_2__] defined *)
  endian : byte_order;    (* byte order of a [uint64_t] in memory *)
  size_bits : Z           (* width of [size_t] *)
}.

(** The module's own target, WebAssembly: little-endian by definition. *)
Definition wasm32 : target := Target false LittleEndian 32.
Definition x86_64_sse42 : target := Target true LittleEndian 64.
Definition big_endian64 : target := Target false BigEndian 64.

(** ** Memory reads *)

Definition u8 (x : byte) : Z := Z.of_N (Byte.to_N x).

(** [p[i]] *)
Definition read (p : list byte) (i : nat) : option Z := u8 <$> p !! i.

(** The value of the bytes [bs], least significant first. *)
Definition pack_le (bs : list Z) : Z := foldr (λ b acc, b + 256 * acc) 0 bs.

(** The 64-bit value of eight bytes in memory order. *)
Definition word (e : byte_order) (bs : list Z) : Z :=
  match e with
  | LittleEndian => pack_le bs
  | BigEndian => pack_le (reverse bs)
  end.

(** [*(uint64_t* )(p + i)] *)
Definition load64 (e : byte_order) (p : list byte) (i : nat) : option Z :=
  bs ← mapM (λ k, read p (i + k)) (seq 0 8);
  Some (word e bs).

(** ** [fast_crc32] *)

(** The local [crc_table[256]]: five initialisers, the other 251 entries
    are zero-initialised. *)
Definition crc_table : list Z :=
  [0x00000000; 0x77073096; 0xEE0E612C; 0x990951BA; 0x2D02EF8D]
    ++ replicate 251 0.

(** [crc_table[(crc ^ d) & 0xFF] ^ (crc >> 8)] *)
Definition table_step (crc d : Z) : Z :=
  Z.lxor (default 0 (crc_table !! Z.to_nat (Z.land (Z.lxor crc d) 0xFF)))
         (Z.shiftr crc 8).

(** One round of the CRC32 instruction's bit-serial division: the
    instruction works on the reflected Castagnoli polynomial. *)
Definition crc32c_round (c : Z) : Z :=
  if Z.odd c then Z.lxor (Z.shiftr c 1) 0x82F63B78 else Z.shiftr c 1.

(** [__builtin_ia32_crc32qi (crc, d)]: the SSE4.2 instruction [CRC32 r32, r/m8]. *)
Definition builtin_ia32_crc32qi (crc d : Z) : Z :=
  Nat.iter 8 crc32c_round (Z.lxor crc d).

(** [for (size_t i = ...; i < length; i++) crc = step (crc, data[i]);]
    with [n = length - i]. *)
Fixpoint crc32_loop (step : Z → Z → Z) (data : list byte)
    (n i : nat) (crc : Z) : option Z :=
  match n with
  | O => Some crc
  | S n' => d ← read data i; crc32_loop step data n' (S i) (step crc d)
  end.

Definition fast_crc32 (t : target) (data : list byte) (length : nat)
    : option Z :=
  crc ← crc32_loop (if sse4_2 t then builtin_ia32_crc32qi else table_step)
                   data length 0%nat 0xFFFFFFFF;
  Some (Z.lxor crc 0xFFFFFFFF).

(** *** The reference CRC-32 of the specification

    Reflected polynomial 0xEDB88320, register initialised to 0xFFFFFFFF,
    complemented at the end, driven by the complete table generated from
    the polynomial. *)

Definition crc32_round (c : Z) : Z :=
  if Z.odd c then Z.lxor (Z.shiftr c 1) 0xEDB88320 else Z.shiftr c 1.

Definition standard_crc_table : list Z :=
  (λ n, Nat.iter 8 crc32_round (Z.of_nat n)) <$> seq 0 256.

Definition reference_step (crc d : Z) : Z :=
  Z.lxor (default 0 (standard_crc_table !! Z.to_nat (Z.land (Z.lxor crc d) 0xFF)))
         (Z.shiftr crc 8).

Definition crc32_reference (data : list byte) : Z :=
  Z.lxor (foldl (λ crc x, reference_step crc (u8 x)) 0xFFFFFFFF data)
         0xFFFFFFFF.

(** The bytes of a string literal. *)
Definition bytes (s : string) : list byte := list_byte_of_string s.

(** The check string of the CRC catalogue. *)
Definition check_vector : list byte := bytes "123456789".

(** ** [fast_memcmp] *)

(** The second loop, [for (; i < len; i++)], with [rem = len - i]. *)
Fixpoint memcmp_bytes (a b : list byte) (rem i : nat) : option Z :=
  match rem with
  | O => Some 0
  | S rem' =>
      x ← read a i; y ← read b i;
      if bool_decide (x ≠ y) then Some (if bool_decide (x < y) then -1 else 1)
      else memcmp_bytes a b rem' (S i)
  end.

(** The first loop, [for (; i + 8 <= len; i += 8)], with [rem = len - i]:
    the guard [i + 8 <= len] is [8 <= rem].  When the guard fails the
    function goes on with the second loop from the same [i]. *)
Fixpoint memcmp_words (e : byte_order) (a b : list byte) (rem i : nat)
    : option Z :=
  match rem with
  | S (S (S (S (S (S (S (S rem'))))))) =>
      va ← load64 e a i; vb ← load64 e b i;
      if bool_decide (va ≠ vb) then Some (if bool_decide (va < vb) then -1 else 1)
      else memcmp_words e a b rem' (i + 8)
  | _ => memcmp_bytes a b rem i
  end.

Definition fast_memcmp (t : target) (a b : list byte) (len : nat)
    : option Z :=
  memcmp_words (endian t) a b len 0.

(** *** The reference comparison of the specification

    Scan from index 0; at the first index where the bytes differ answer by
    the unsigned comparison of the two bytes; [equal] when there is none.
    [less], [equal], [greater] are the C results [-1], [0], [1]. *)
Fixpoint compare_reference (a b : list Z) : Z :=
  match a, b with
  | x :: a', y :: b' =>
      if bool_decide (x = y) then compare_reference a' b'
      else if bool_decide (x < y) then -1 else 1
  | _, _ => 0
  end.

(** ** [find_pattern] *)

(** [(size_t)-1] *)
Definition NOT_FOUND (t : target) : Z := (-1) mod 2 ^ size_bits t.

(** [for (size_t j = ...; j < needle_len; j++)
       pattern |= (uint64_t)p[base + j] << (j * 8);]
    with [n = needle_len - j]. *)
Fixpoint pack_loop (p : list byte) (base : nat) (n j : nat) (pattern : Z)
    : option Z :=
  match n with
  | O => Some pattern
  | S n' =>
      x ← read p (base + j);
      pack_loop p base n' (S j)
        (Z.lor pattern (Z.shiftl x (Z.of_nat j * 8) mod 2 ^ 64))
  end.

(** [for (size_t i = ...; i <= haystack_len - needle_len; i++)] of the
    branch [needle_len <= 8], with [n = haystack_len - needle_len + 1 - i];
    leaving the loop leads to the final [return (size_t)-1]. *)
Fixpoint search_small (t : target) (haystack : list byte) (needle_len : nat)
    (needle_pattern : Z) (n i : nat) : option Z :=
  match n with
  | O => Some (NOT_FOUND t)
  | S n' =>
      haystack_pattern ← pack_loop haystack i needle_len 0 0;
      if bool_decide (haystack_pattern = needle_pattern) then Some (Z.of_nat i)
      else search_small t haystack needle_len needle_pattern n' (S i)
  end.

(** The same loop of the branch [needle_len > 8]. *)
Fixpoint search_large (t : target) (haystack needle : list byte)
    (needle_len : nat) (n i : nat) : option Z :=
  match n with
  | O => Some (NOT_FOUND t)
  | S n' =>
      r ← fast_memcmp t (drop i haystack) needle needle_len;
      if bool_decide (r = 0) then Some (Z.of_nat i)
      else search_large t haystack needle needle_len n' (S i)
  end.

Definition find_pattern (t : target) (haystack : list byte)
    (haystack_len : nat) (needle : list byte) (needle_len : nat)
    : option Z :=
  if bool_decide (needle_len = 0 ∨ haystack_len < needle_len)%nat
  then Some (NOT_FOUND t)
  else if bool_decide (needle_len ≤ 8)%nat then
    needle_pattern ← pack_loop needle 0 needle_len 0 0;
    search_small t haystack needle_len needle_pattern
      (haystack_len - needle_len + 1) 0
  else
    search_large t haystack needle needle_len
      (haystack_len - needle_len + 1) 0.

(** ** [calculate_entropy] *)

(** The [double] arithmetic the function uses.  Its results depend on
    IEEE 754 rounding and on the C library's [log2]; the embedding keeps
    the operations abstract. *)
Class FloatOps (F : Type) := {
  f_zero : F;                 (* [0.0] *)
  f_of_u32 : Z → F;           (* [(double)c] of a [uint32_t] *)
  f_of_size : nat → F;        (* conversion of a [size_t] operand *)
  f_div : F → F → F;
  f_mul : F → F → F;
  f_sub : F → F → F;
  f_log2 : F → F
}.

(** [for (size_t i = ...; i < length; i++)
       if (counts[data[i]]++ == 0) unique_count++;]
    with [n = length - i]; [counts] holds [uint32_t], [unique_count] is a
    [size_t]. *)
Fixpoint count_loop (t : target) (data : list byte) (n i : nat)
    (counts : list Z) (unique_count : Z) : option (list Z * Z) :=
  match n with
  | O => Some (counts, unique_count)
  | S n' =>
      d ← read data i;
      let old := default 0 (counts !! Z.to_nat d) in
      count_loop t data n' (S i)
        (<[Z.to_nat d := (old + 1) mod 2 ^ 32]> counts)
        (if bool_decide (old = 0) then (unique_count + 1) mod 2 ^ size_bits t
         else unique_count)
  end.

(** The histogram [counts[256]] after the first loop. *)
Definition count_frequencies (t : target) (data : list byte) (length : nat)
    : option (list Z) :=
  fst <$> count_loop t data length 0 (replicate 256 0) 0.

(** [for (int i = ...; i < 256; i++)
       if (counts[i] > 0) { p = (double)counts[i] / length;
                            entropy -= p * log2(p); }]
    with [n = 256 - i]. *)
Fixpoint entropy_loop {F} `{FloatOps F} (counts : list Z) (length : nat)
    (n i : nat) (entropy : F) : F :=
  match n with
  | O => entropy
  | S n' =>
      let c := default 0 (counts !! i) in
      entropy_loop counts length n' (S i)
        (if bool_decide (0 < c) then
           let p := f_div (f_of_u32 c) (f_of_size length) in
           f_sub entropy (f_mul p (f_log2 p))
         else entropy)
  end.

Definition calculate_entropy {F} `{FloatOps F} (t : target)
    (data : list byte) (length : nat) : option F :=
  if bool_decide (length = 0%nat) then Some f_zero
  else
    counts ← count_frequencies t data length;
    Some (entropy_loop counts length 256 0 f_zero).

(** ** Vocabulary of the statements *)

(** *** Exact arithmetic

    The operations over the real numbers: what the function computes when
    no conversion and no operation rounds. *)
#[local] Instance exact_arithmetic : FloatOps R := {|
  f_zero := 0%R;
  f_of_u32 := IZR;
  f_of_size := INR;
  f_div := Rdiv;
  f_mul := Rmult;
  f_sub := Rminus;
  f_log2 := λ x, (ln x / ln 2)%R
|}.

(** The term of the byte value whose counter is [c]: [p * log2(p)] when
    the counter is positive. *)
Definition entropy_term (length : nat) (c : Z) : R :=
  if bool_decide (0 < c) then
    let p := (IZR c / INR length)%R in (p * (ln p / ln 2))%R
  else 0%R.

Definition Zsum (l : list Z) : Z := foldr Z.add 0 l.
Definition Rsum (l : list R) : R := foldr Rplus 0%R l.

(** *** Buffers and searches *)

(** The byte values [p[i]], ..., [p[i + n - 1]]. *)
Definition window (p : list byte) (i n : nat) : list Z :=
  u8 <$> take n (drop i p).

Definition is_u8 (x : Z) : Prop := 0 ≤ x < 256.

(** The order in which a word comparison weighs the bytes of a group:
    from the last byte down on a little-endian target. *)
Definition group_order (e : byte_order) (bs : list Z) : list Z :=
  match e with
  | LittleEndian => reverse bs
  | BigEndian => bs
  end.

(** The sort key of [rem] byte values under [fast_memcmp]: every complete
    group of eight in its [group_order], the tail as it is. *)
Fixpoint word_key (e : byte_order) (rem : nat) (xs : list Z) : list Z :=
  match rem with
  | S (S (S (S (S (S (S (S rem'))))))) =>
      group_order e (take 8 xs) ++ word_key e rem' (drop 8 xs)
  | _ => xs
  end.

(** The needle's bytes equal [haystack[i .. i + needle_len)]. *)
Definition matches_at (haystack needle : list byte) (needle_len i : nat)
    : Prop :=
  take needle_len (drop i haystack) = take needle_len needle.

(** The offsets [i], ..., [i + n - 1] leave room for the needle. *)
Definition in_haystack (haystack : list byte) (needle_len n i : nat) : Prop :=
  (n = 0 ∨ i + n + needle_len ≤ S (length haystack))%nat.

(** [r] answers a leftmost search among the offsets [lo ≤ k < hi]. *)
Definition search_answer (t : target) (haystack needle : list byte)
    (needle_len lo hi : nat) (r : Z) : Prop :=
  (r = NOT_FOUND t
   ∧ ∀ k, (lo ≤ k < hi)%nat → ¬ matches_at haystack needle needle_len k)
  ∨ (∃ k, r = Z.of_nat k ∧ (lo ≤ k < hi)%nat
          ∧ matches_at haystack needle needle_len k
          ∧ ∀ j, (lo ≤ j < k)%nat → ¬ matches_at haystack needle needle_len j).

(** How often the byte value [d] occurs among the values [l]. *)
Definition occurrences (d : Z) (l : list Z) : nat :=
  length (filter (λ x, x = d) l).

(** *** IEEE 754 binary64 arithmetic

    The operations of [double] as the hardware performs them, rounding to
    nearest; [log2] is the C library's and stays a parameter.  A [size_t]
    converts through a 63-bit integer: lengths stay below [PTRDIFF_MAX]. *)
Definition double_of_Z (z : Z) : float := PrimFloat.of_uint63 (Uint63.of_Z z).

Definition binary64 (log2 : float → float) : FloatOps float := {|
  f_zero := 0%float;
  f_of_u32 := double_of_Z;
  f_of_size := λ n, double_of_Z (Z.of_nat n);
  f_div := PrimFloat.div;
  f_mul := PrimFloat.mul;
  f_sub := PrimFloat.sub;
  f_log2 := log2
|}.

(** The doubles at most [k] units in the last place above and below [x],
    and the doubles within [k] units of [x]. *)
Fixpoint ulps_above (k : nat) (x : float) : list float :=
  match k with
  | O => []
  | S k' => PrimFloat.next_up x :: ulps_above k' (PrimFloat.next_up x)
  end.

Fixpoint ulps_below (k : nat) (x : float) : list float :=
  match k with
  | O => []
  | S k' => PrimFloat.next_down x :: ulps_below k' (PrimFloat.next_down x)
  end.

Definition within_ulps (k : nat) (x : float) : list float :=
  x :: ulps_above k x ++ ulps_below k x.

(** *** The entropy formula of the specification

    The empirical probability of each byte value, and minus the sum of
    [p * log2 p] over the byte values of positive probability, as real
    numbers. *)
Definition probability (l : list Z) (v : Z) : R :=
  (INR (occurrences v l) / INR (length l))%R.

Definition shannon_entropy (l : list Z) : R :=
  (- Rsum ((λ v : nat,
              if bool_decide (0 < occurrences (Z.of_nat v) l)%nat
              then probability l (Z.of_nat v)
                   * (ln (probability l (Z.of_nat v)) / ln 2)
              else 0) <$> seq 0 256))%R.

(** The histogram of the true occurrence counts. *)
Definition true_counts (l : list Z) : list Z :=
  (λ v : nat, Z.of_nat (occurrences (Z.of_nat v) l)) <$> seq 0 256.

(** *** Buffers given by runs

    The buffer that holds, for each pair in turn, the byte repeated as
    often as the pair says; and the buffer of 2^28 + 5 bytes in which the
    byte values 0 to 4 occur 2^20 + 1 times and all others 2^20 times. *)
Definition expand (runs : list (byte * Z)) : list byte :=
  concat ((λ r, replicate (Z.to_nat r.2) r.1) <$> runs).

Definition skewed_runs : list (byte * Z) :=
  (λ v : nat, (default x00 (Byte.of_nat v),
               if bool_decide (v < 5)%nat then 2 ^ 20 + 1 else 2 ^ 20))
    <$> seq 0 256.

Definition skewed_buffer : list byte := expand skewed_runs.

(** The occurrences of [d] in a buffer given by runs, from the runs. *)
Definition run_count (runs : list (byte * Z)) (d : Z) : Z :=
  Zsum ((λ r, if bool_decide (u8 r.1 = d) then r.2 else 0) <$> runs).

(** The two probabilities that occur in [skewed_buffer], and the doubles
    nearest to their binary logarithms. *)
Definition p_low : float :=
  PrimFloat.div (double_of_Z (2 ^ 20)) (double_of_Z (2 ^ 28 + 5)).
Definition p_high : float :=
  PrimFloat.div (double_of_Z (2 ^ 20 + 1)) (double_of_Z (2 ^ 28 + 5)).
Definition log2_p_low : float := (-0x1.0000000e6d4cap+3)%float.
Definition log2_p_high : float := (-0x1.fffffa5788ee1p+2)%float.

(** The histogram of [skewed_buffer]. *)
Definition skewed_counts : list Z :=
  replicate 5 (2 ^ 20 + 1) ++ replicate 251 (2 ^ 20).

(** [binary64] with the length operand already converted and [log2] given
    by its values at [p_low] and elsewhere: the loop of [skewed_buffer]
    in closed form. *)
Definition binary64_skewed (x_low x_high : float) : FloatOps float := {|
  f_zero := 0%float;
  f_of_u32 := double_of_Z;
  f_of_size := λ _, double_of_Z (2 ^ 28 + 5);
  f_div := PrimFloat.div;
  f_mul := PrimFloat.mul;
  f_sub := PrimFloat.sub;
  f_log2 := λ q, if PrimFloat.eqb q p_low then x_low else x_high
|}.

(** Two buffers agree on their first [n] bytes. *)
Definition agree (n : nat) (p q : list byte) : Prop :=
  ∀ k, (k < n)%nat → read p k = read q k.

(** * Properties *)

(** ** Bytes and reads *)

Lemma u8_range x : 0 ≤ u8 x < 256.
Proof.
  unfold u8. pose proof (Byte.to_N_bounded x). lia.
Qed.

#[local] Instance u8_inj : Inj (=) (=) u8.
Proof.
  intros x y. unfold u8. intros E. apply N2Z.inj in E.
  assert (E' : Some x = Some y)
    by (rewrite <- (Byte.of_to_N x), <- (Byte.of_to_N y), E; reflexivity).
  congruence.
Qed.

Lemma read_Some p i x : read p i = Some x ↔ ∃ c, p !! i = Some c ∧ x = u8 c.
Proof.
  unfold read. destruct (p !! i) as [c|]; simpl.
  - split; [intros [= <-]; eauto | intros (c' & [= <-] & ->); done].
  - split; [done | intros (c' & [=] & _)].
Qed.

Lemma read_lt p i : (i < length p)%nat → ∃ c, p !! i = Some c ∧ read p i = Some (u8 c).
Proof.
  intros H. destruct (lookup_lt_is_Some_2 p i H) as [c Hc].
  exists c. unfold read. rewrite Hc. done.
Qed.

Lemma read_drop p k i : read (drop k p) i = read p (k + i).
Proof. unfold read. by rewrite lookup_drop. Qed.

Lemma agree_take n p q : take n p = take n q → agree n p q.
Proof.
  intros E k Hk. unfold read.
  rewrite <- (lookup_take_lt p n k), <- (lookup_take_lt q n k) by done.
  by rewrite E.
Qed.

Lemma agree_le n m p q : (m ≤ n)%nat → agree n p q → agree m p q.
Proof. intros Hle H k Hk. apply H. lia. Qed.

Lemma agree_drop n i p q : agree (i + n) p q → agree n (drop i p) (drop i q).
Proof. intros H k Hk. rewrite !read_drop. apply H. lia. Qed.

(** ** Checksum *)

Lemma crc32_loop_total step data n i crc :
  (i + n ≤ length data)%nat → is_Some (crc32_loop step data n i crc).
Proof.
  revert i crc. induction n as [|n IH]; intros i crc Hlen; simpl.
  - by eexists.
  - destruct (read_lt data i) as (c & _ & ->); [lia|]. simpl.
    apply IH. lia.
Qed.

Lemma crc32_loop_agree step p q n i crc :
  agree (i + n) p q → crc32_loop step p n i crc = crc32_loop step q n i crc.
Proof.
  revert i crc. induction n as [|n IH]; intros i crc H; simpl; [done|].
  rewrite (H i) by lia. destruct (read q i) as [d|]; simpl; [|done].
  apply IH. intros k Hk. apply H. lia.
Qed.

(** The function returns on every buffer that holds [len] valid bytes. *)
Lemma fast_crc32_total t data len :
  (len ≤ length data)%nat → is_Some (fast_crc32 t data len).
Proof.
  intros H. unfold fast_crc32.
  destruct (crc32_loop_total (if sse4_2 t then builtin_ia32_crc32qi else table_step)
              data len 0 0xFFFFFFFF) as [crc ->]; [lia|].
  by eexists.
Qed.

(** The table of the source agrees with the table generated from the
    polynomial at the indices 0 to 3 and nowhere else. *)
Lemma crc_table_partial :
  length crc_table = 256%nat ∧
  filter (λ n, crc_table !! n = standard_crc_table !! n) (seq 0 256)
    = [0; 1; 2; 3]%nat.
Proof. split; vm_compute; reflexivity. Qed.

(** C1 (the code departs from the claim). On the check string "123456789"
    the reference CRC-32 of the specification is 0xCBF43926.  On the table
    path [fast_crc32] returns 0xFFFFFFFF: the table of the source has five
    initialised entries, every index [(crc ^ data[i]) & 0xFF] met on this
    input (0xCE, 0xCD, 0xCC, 0xCB, then 0x35 to 0x39) selects a zero entry,
    and the register runs through 0x00FFFFFF, 0x0000FFFF, 0x000000FF, 0.
    On the SSE4.2 path it returns 0xE3069283: the instruction computes
    CRC-32C. *)
Theorem fast_crc32_check_vector :
  crc32_reference check_vector = 0xCBF43926 ∧
  fast_crc32 wasm32 check_vector 9 = Some 0xFFFFFFFF ∧
  fast_crc32 x86_64_sse42 check_vector 9 = Some 0xE3069283.
Proof. repeat split; vm_compute; reflexivity. Qed.

(** C6. On the empty buffer (length 0) [fast_crc32] returns 0x00000000, on
    the table path and on the SSE4.2 path, whatever the pointer holds. *)
Theorem fast_crc32_empty t data : fast_crc32 t data 0 = Some 0x00000000.
Proof. reflexivity. Qed.

(** ** Windows and words *)

Lemma window_length p i n : (i + n ≤ length p)%nat → length (window p i n) = n.
Proof.
  intros H. unfold window. rewrite length_fmap, length_take, length_drop. lia.
Qed.

Lemma window_u8 p i n : Forall is_u8 (window p i n).
Proof.
  unfold window. apply Forall_fmap, Forall_forall. intros x _. apply u8_range.
Qed.

Lemma window_lookup p i n k :
  (k < n)%nat → window p i n !! k = read p (i + k).
Proof.
  intros H. unfold window, read.
  by rewrite list_lookup_fmap, lookup_take_lt, lookup_drop.
Qed.

Lemma window_0 p i : window p i 0 = [].
Proof. done. Qed.

Lemma window_S p i n c :
  p !! i = Some c → window p i (S n) = u8 c :: window p (S i) n.
Proof.
  intros H. unfold window.
  rewrite (drop_S _ _ _ H). simpl. done.
Qed.

Lemma window_add p i n m :
  window p i (n + m) = window p i n ++ window p (i + n) m.
Proof.
  unfold window. rewrite <- take_take_drop, fmap_app, drop_drop. done.
Qed.

Lemma window_inj p q i n :
  window p i n = window q i n ↔ take n (drop i p) = take n (drop i q).
Proof.
  unfold window. split; [|by intros ->].
  apply (inj (fmap u8)).
Qed.

Lemma read_window p i n :
  (i + n ≤ length p)%nat →
  mapM (λ k, read p (i + k)) (seq 0 n) = Some (window p i n).
Proof.
  intros H. apply mapM_Some_2, Forall2_same_length_lookup_2.
  - by rewrite length_seq, window_length.
  - intros k x y Hx Hy. apply lookup_seq in Hx as [-> Hk].
    by rewrite <- Hy, window_lookup.
Qed.

Lemma load64_Some e p i :
  (i + 8 ≤ length p)%nat → load64 e p i = Some (word e (window p i 8)).
Proof.
  intros H. unfold load64. by rewrite (read_window p i 8 H).
Qed.

Lemma load64_agree e p q i :
  agree (i + 8) p q → load64 e p i = load64 e q i.
Proof.
  intros H. unfold load64. f_equal.
  apply Forall_mapM_ext, Forall_forall. intros k Hk.
  apply elem_of_seq in Hk. apply H. lia.
Qed.

Lemma pack_le_inj xs ys :
  length xs = length ys → Forall is_u8 xs → Forall is_u8 ys →
  pack_le xs = pack_le ys → xs = ys.
Proof.
  revert ys. induction xs as [|x xs IH]; intros [|y ys] Hlen Hx Hy E;
    try discriminate; [done|].
  apply Forall_cons in Hx as [Hx Hxs]. apply Forall_cons in Hy as [Hy Hys].
  unfold is_u8 in Hx, Hy. injection Hlen as Hlen.
  change (x + 256 * pack_le xs = y + 256 * pack_le ys) in E.
  assert (x = y) as -> by lia.
  f_equal. apply IH; try done. lia.
Qed.

Lemma word_inj e xs ys :
  length xs = length ys → Forall is_u8 xs → Forall is_u8 ys →
  word e xs = word e ys → xs = ys.
Proof.
  intros Hlen Hx Hy E. destruct e; simpl in E.
  - by apply pack_le_inj.
  - apply (inj reverse), pack_le_inj; try done.
    + by rewrite !length_reverse.
    + by apply Forall_reverse.
    + by apply Forall_reverse.
Qed.

(** ** The reference comparison *)

Lemma compare_reference_sign xs ys :
  compare_reference xs ys = -1 ∨ compare_reference xs ys = 0
  ∨ compare_reference xs ys = 1.
Proof.
  revert ys. induction xs as [|x xs IH]; intros [|y ys]; simpl; auto.
  repeat case_bool_decide; auto.
Qed.

Lemma compare_reference_eq xs ys :
  length xs = length ys → compare_reference xs ys = 0 ↔ xs = ys.
Proof.
  revert ys. induction xs as [|x xs IH]; intros [|y ys] Hlen;
    try discriminate; simpl; [done|].
  injection Hlen as Hlen. repeat case_bool_decide; subst.
  - rewrite (IH ys Hlen). split; [by intros -> | by intros [= ->]].
  - split; [done | by intros [= ? _]].
  - split; [done | by intros [= ? _]].
Qed.

Lemma compare_reference_swap xs ys :
  compare_reference ys xs = - compare_reference xs ys.
Proof.
  revert ys. induction xs as [|x xs IH]; intros [|y ys]; simpl; try done.
  repeat case_bool_decide; subst; try done; lia.
Qed.

Lemma compare_reference_app xs ys r r' :
  length xs = length ys →
  compare_reference (xs ++ r) (ys ++ r') =
    if bool_decide (compare_reference xs ys = 0) then compare_reference r r'
    else compare_reference xs ys.
Proof.
  revert ys. induction xs as [|x xs IH]; intros [|y ys] Hlen;
    try discriminate; simpl; [done|].
  injection Hlen as Hlen. destruct (bool_decide (x = y)); [by apply IH|].
  by destruct (bool_decide (x < y)).
Qed.

(** ** Comparator *)

Lemma memcmp_bytes_spec a b rem i :
  (i + rem ≤ length a)%nat → (i + rem ≤ length b)%nat →
  memcmp_bytes a b rem i
    = Some (compare_reference (window a i rem) (window b i rem)).
Proof.
  revert i. induction rem as [|rem IH]; intros i Ha Hb; simpl; [done|].
  destruct (read_lt a i) as (x & Hx & ->); [lia|].
  destruct (read_lt b i) as (y & Hy & ->); [lia|]. simpl.
  rewrite (window_S a i rem x Hx), (window_S b i rem y Hy). simpl.
  repeat case_bool_decide; try done. apply IH; lia.
Qed.

Lemma memcmp_bytes_swap a b rem i r :
  memcmp_bytes a b rem i = Some r → memcmp_bytes b a rem i = Some (- r).
Proof.
  revert i. induction rem as [|rem IH]; intros i; simpl; [by intros [= <-]|].
  destruct (read a i) as [x|]; [|done]. destruct (read b i) as [y|]; [|done].
  simpl. repeat case_bool_decide; try done; try (intros [= <-]; f_equal; lia).
  apply IH.
Qed.

Lemma memcmp_bytes_agree a a' b b' rem i :
  agree (i + rem) a a' → agree (i + rem) b b' →
  memcmp_bytes a b rem i = memcmp_bytes a' b' rem i.
Proof.
  revert i. induction rem as [|rem IH]; intros i Ha Hb; simpl; [done|].
  rewrite (Ha i), (Hb i) by lia.
  destruct (read a' i) as [x|]; [|done]. destruct (read b' i) as [y|]; [|done].
  simpl. case_bool_decide; [done|].
  apply IH; intros k Hk; [apply Ha | apply Hb]; lia.
Qed.

Lemma memcmp_words_lt e a b rem i :
  (rem < 8)%nat → memcmp_words e a b rem i = memcmp_bytes a b rem i.
Proof.
  intros H. do 8 (destruct rem as [|rem]; [reflexivity|]). lia.
Qed.

Lemma memcmp_words_ge e a b rem i :
  memcmp_words e a b (8 + rem) i =
    va ← load64 e a i; vb ← load64 e b i;
    if bool_decide (va ≠ vb) then Some (if bool_decide (va < vb) then -1 else 1)
    else memcmp_words e a b rem (i + 8).
Proof. reflexivity. Qed.

(** Case analysis on the guard of the first loop. *)
Ltac words_cases rem :=
  let H := fresh "Hrem" in
  destruct (decide (rem < 8)%nat) as [H|H];
  [ rewrite (memcmp_words_lt _ _ _ rem _ H)
  | replace rem with (8 + (rem - 8))%nat by lia;
    rewrite memcmp_words_ge ].

Lemma memcmp_words_spec e a b rem i :
  (i + rem ≤ length a)%nat → (i + rem ≤ length b)%nat →
  ∃ r, memcmp_words e a b rem i = Some r
       ∧ (r = -1 ∨ r = 0 ∨ r = 1)
       ∧ (r = 0 ↔ window a i rem = window b i rem).
Proof.
  revert i. induction (lt_wf rem) as [rem _ IH]. intros i Ha Hb.
  words_cases rem.
  - rewrite memcmp_bytes_spec by done. eexists. split; [done|].
    split; [apply compare_reference_sign|].
    apply compare_reference_eq. by rewrite !window_length.
  - rewrite !(window_add _ i 8), !load64_Some by lia. cbn [mbind option_bind].
    assert (Hl : length (window a i 8) = length (window b i 8))
      by (rewrite !window_length; lia).
    case_bool_decide as Hw.
    + eexists. split; [done|]. split; [case_bool_decide; auto|].
      split; [case_bool_decide; done|].
      intros E. apply app_inj_1 in E as [E _]; [|done].
      by rewrite E in Hw.
    + apply word_inj in Hw; [|done|apply window_u8|apply window_u8].
      destruct (IH (rem - 8)%nat ltac:(lia) (i + 8)%nat) as (r & -> & Hs & Hr);
        [lia|lia|].
      exists r. split; [done|]. split; [done|].
      rewrite Hr, Hw. split; [by intros ->|]. by intros E%app_inv_head.
Qed.

Lemma memcmp_words_swap e a b rem i r :
  memcmp_words e a b rem i = Some r → memcmp_words e b a rem i = Some (- r).
Proof.
  revert i. induction (lt_wf rem) as [rem _ IH]. intros i.
  words_cases rem.
  - rewrite memcmp_words_lt by done. apply memcmp_bytes_swap.
  - replace rem with (8 + (rem - 8))%nat at 2 by lia. rewrite memcmp_words_ge.
    destruct (load64 e a i) as [va|]; [|done].
    destruct (load64 e b i) as [vb|]; [|done]. simpl.
    repeat case_bool_decide; try done; try (intros [= <-]; f_equal; lia).
    apply IH. lia.
Qed.

Lemma memcmp_words_agree e a a' b b' rem i :
  agree (i + rem) a a' → agree (i + rem) b b' →
  memcmp_words e a b rem i = memcmp_words e a' b' rem i.
Proof.
  revert i. induction (lt_wf rem) as [rem _ IH]. intros i Ha Hb.
  words_cases rem.
  - rewrite memcmp_words_lt by done. by apply memcmp_bytes_agree.
  - replace rem with (8 + (rem - 8))%nat at 2 by lia. rewrite memcmp_words_ge.
    rewrite (load64_agree e a a'), (load64_agree e b b')
      by (eapply agree_le; [|eassumption]; lia).
    destruct (load64 e a' i) as [va|]; [|done].
    destruct (load64 e b' i) as [vb|]; [|done]. simpl.
    case_bool_decide; [done|].
    apply IH; [lia| |]; (eapply agree_le; [|eassumption]; lia).
Qed.

(** *** Word comparison and byte order *)

Lemma pack_le_app xs ys :
  pack_le (xs ++ ys) = pack_le xs + 256 ^ Z.of_nat (length xs) * pack_le ys.
Proof.
  induction xs as [|x xs IH]; [simpl; lia|].
  change (x + 256 * pack_le (xs ++ ys)
          = x + 256 * pack_le xs + 256 ^ Z.of_nat (S (length xs)) * pack_le ys).
  rewrite IH, Nat2Z.inj_succ, Z.pow_succ_r by lia. ring.
Qed.

Lemma pack_le_range xs :
  Forall is_u8 xs → 0 ≤ pack_le xs < 256 ^ Z.of_nat (length xs).
Proof.
  induction 1 as [|x xs Hx _ IH]; [simpl; lia|].
  change (0 ≤ x + 256 * pack_le xs < 256 ^ Z.of_nat (S (length xs))).
  rewrite Nat2Z.inj_succ, Z.pow_succ_r by lia. unfold is_u8 in Hx. lia.
Qed.

Lemma word_big_cons x xs :
  word BigEndian (x :: xs)
    = 256 ^ Z.of_nat (length xs) * x + word BigEndian xs.
Proof.
  simpl. rewrite reverse_cons, pack_le_app, length_reverse.
  change (pack_le [x]) with (x + 256 * 0). lia.
Qed.

Lemma word_little_big xs : word LittleEndian xs = word BigEndian (reverse xs).
Proof. simpl. by rewrite reverse_involutive. Qed.

(** Big-endian words order like their byte sequences. *)
Lemma word_big_order xs ys :
  length xs = length ys → Forall is_u8 xs → Forall is_u8 ys →
  compare_reference xs ys =
    if bool_decide (word BigEndian xs = word BigEndian ys) then 0
    else if bool_decide (word BigEndian xs < word BigEndian ys) then -1 else 1.
Proof.
  revert ys. induction xs as [|x xs IH]; intros [|y ys] Hlen Hx Hy;
    try discriminate; [done|].
  injection Hlen as Hlen.
  apply Forall_cons in Hx as [Hx Hxs]. apply Forall_cons in Hy as [Hy Hys].
  rewrite !word_big_cons, <- Hlen. simpl compare_reference.
  rewrite (IH ys Hlen Hxs Hys).
  pose proof (pack_le_range (reverse xs) (proj2 (Forall_reverse _ _) Hxs)) as Bx.
  pose proof (pack_le_range (reverse ys) (proj2 (Forall_reverse _ _) Hys)) as By.
  rewrite length_reverse in Bx, By. rewrite <- Hlen in By.
  change (pack_le (reverse xs)) with (word BigEndian xs) in Bx.
  change (pack_le (reverse ys)) with (word BigEndian ys) in By.
  unfold is_u8 in Hx, Hy.
  set (P := 256 ^ Z.of_nat (length xs)) in *.
  repeat case_bool_decide; subst; try done; try lia; exfalso; nia.
Qed.

(** What the first loop answers on a pair of differing words: on a
    big-endian target the order of the byte sequences, on a little-endian
    target the order of the reversed sequences. *)
Lemma word_order e xs ys :
  length xs = length ys → Forall is_u8 xs → Forall is_u8 ys →
  word e xs ≠ word e ys →
  (if bool_decide (word e xs < word e ys) then -1 else 1) =
    match e with
    | LittleEndian => compare_reference (reverse xs) (reverse ys)
    | BigEndian => compare_reference xs ys
    end.
Proof.
  intros Hlen Hx Hy Hne. destruct e.
  - rewrite !word_little_big in *.
    rewrite word_big_order by (rewrite ?length_reverse; try apply Forall_reverse; done).
    by rewrite (bool_decide_eq_false_2 (_ = _)).
  - rewrite word_big_order by done. by rewrite (bool_decide_eq_false_2 (_ = _)).
Qed.

(** With big-endian loads the function is the reference comparison. *)
Lemma memcmp_words_big_endian a b rem i :
  (i + rem ≤ length a)%nat → (i + rem ≤ length b)%nat →
  memcmp_words BigEndian a b rem i
    = Some (compare_reference (window a i rem) (window b i rem)).
Proof.
  revert i. induction (lt_wf rem) as [rem _ IH]. intros i Ha Hb.
  words_cases rem.
  - by apply memcmp_bytes_spec.
  - rewrite !(window_add _ i 8), !load64_Some by lia. cbn [mbind option_bind].
    assert (Hl : length (window a i 8) = length (window b i 8))
      by (rewrite !window_length; lia).
    rewrite compare_reference_app by done.
    rewrite (word_big_order (window a i 8) (window b i 8))
      by (try apply window_u8; done).
    case_bool_decide as Hw.
    + rewrite (bool_decide_eq_false_2 (word _ _ = word _ _)) by done.
      by destruct (bool_decide (word _ _ < word _ _)).
    + rewrite (bool_decide_eq_true_2 (word _ _ = word _ _)) by done.
      rewrite bool_decide_eq_true_2 by done. apply IH; lia.
Qed.

(** X6. With big-endian loads [fast_memcmp] is the bytewise comparison. *)
Lemma fast_memcmp_big_endian t a b len :
  endian t = BigEndian → (len ≤ length a)%nat → (len ≤ length b)%nat →
  fast_memcmp t a b len
    = Some (compare_reference (window a 0 len) (window b 0 len)).
Proof.
  intros E Ha Hb. unfold fast_memcmp. rewrite E.
  by apply memcmp_words_big_endian.
Qed.

(** X7. Below eight bytes only the second loop runs: [fast_memcmp] is the
    bytewise comparison on every target. *)
Lemma fast_memcmp_short t a b len :
  (len < 8)%nat → (len ≤ length a)%nat → (len ≤ length b)%nat →
  fast_memcmp t a b len
    = Some (compare_reference (window a 0 len) (window b 0 len)).
Proof.
  intros H Ha Hb. unfold fast_memcmp. rewrite memcmp_words_lt by done.
  by apply memcmp_bytes_spec.
Qed.

(** *** Buffers that differ at one index

    Where two groups differ in a single byte that byte decides in either
    byte order, so the verdict is the reference's on every target. *)

Lemma compare_reference_prefix pre l l' :
  compare_reference (pre ++ l) (pre ++ l') = compare_reference l l'.
Proof.
  induction pre as [|x pre IH]; [done|]. simpl.
  by rewrite bool_decide_eq_true_2.
Qed.

Lemma compare_reference_head x y l l' :
  x ≠ y → compare_reference (x :: l) (y :: l') = compare_reference [x] [y].
Proof. intros H. simpl. by rewrite bool_decide_eq_false_2. Qed.

Lemma compare_reference_reverse_single pre x y post :
  x ≠ y →
  compare_reference (reverse (pre ++ x :: post)) (reverse (pre ++ y :: post))
    = compare_reference (pre ++ x :: post) (pre ++ y :: post).
Proof.
  intros H. rewrite !reverse_app, !reverse_cons, <- !(assoc_L (++)).
  rewrite !compare_reference_prefix.
  change ([x] ++ reverse pre) with (x :: reverse pre).
  change ([y] ++ reverse pre) with (y :: reverse pre).
  by rewrite (compare_reference_head x y (reverse pre)),
    (compare_reference_head x y post).
Qed.

Lemma single_difference_split (xs ys : list Z) k :
  length xs = length ys → (∀ j, j ≠ k → xs !! j = ys !! j) → xs ≠ ys →
  ∃ pre x y post, xs = pre ++ x :: post ∧ ys = pre ++ y :: post ∧ x ≠ y.
Proof.
  intros Hlen Hsame Hne.
  destruct (xs !! k) as [x|] eqn:Hx; last first.
  { destruct Hne. apply list_eq. intros j.
    destruct (decide (j = k)) as [->|]; [|by apply Hsame].
    rewrite Hx. symmetry. apply lookup_ge_None.
    apply lookup_ge_None in Hx. lia. }
  destruct (lookup_lt_is_Some_2 ys k) as [y Hy].
  { rewrite <- Hlen. by eapply lookup_lt_Some. }
  exists (take k xs), x, y, (drop (S k) xs).
  split; [by rewrite take_drop_middle|]. split.
  - rewrite <- (take_drop_middle ys k y Hy) at 1. f_equal; [|f_equal].
    + apply list_eq. intros j. rewrite !lookup_take.
      case_decide; [|done]. symmetry. apply Hsame. lia.
    + apply list_eq. intros j. rewrite !lookup_drop.
      symmetry. apply Hsame. lia.
  - intros ->. destruct Hne. apply list_eq. intros j.
    destruct (decide (j = k)) as [->|]; [congruence|by apply Hsame].
Qed.

Lemma word_order_single e xs ys k :
  length xs = length ys → Forall is_u8 xs → Forall is_u8 ys →
  (∀ j, j ≠ k → xs !! j = ys !! j) → word e xs ≠ word e ys →
  (if bool_decide (word e xs < word e ys) then -1 else 1)
    = compare_reference xs ys.
Proof.
  intros Hlen Hx Hy Hsame Hne. rewrite word_order by done.
  destruct e; [|done].
  destruct (single_difference_split xs ys k Hlen Hsame)
    as (pre & x & y & post & -> & -> & Hxy); [by intros ->|].
  by apply compare_reference_reverse_single.
Qed.

Lemma memcmp_words_single e a b k rem i :
  (i + rem ≤ length a)%nat → (i + rem ≤ length b)%nat →
  (∀ j, (i ≤ j < i + rem)%nat → j ≠ k → a !! j = b !! j) →
  memcmp_words e a b rem i
    = Some (compare_reference (window a i rem) (window b i rem)).
Proof.
  revert i. induction (lt_wf rem) as [rem _ IH]. intros i Ha Hb Hsame.
  words_cases rem.
  - by apply memcmp_bytes_spec.
  - rewrite !(window_add _ i 8), !load64_Some by lia. cbn [mbind option_bind].
    assert (Hl : length (window a i 8) = length (window b i 8))
      by (rewrite !window_length; lia).
    rewrite compare_reference_app by done.
    case_bool_decide as Hw.
    + rewrite (word_order_single e _ _ (k - i)); try apply window_u8; try done.
      * rewrite bool_decide_eq_false_2; [done|].
        rewrite compare_reference_eq by done. by intros E; rewrite E in Hw.
      * intros j Hj. destruct (decide (j < 8)%nat).
        -- rewrite !window_lookup by done. unfold read.
           rewrite (Hsame (i + j)%nat); [done|lia|lia].
        -- by rewrite !lookup_ge_None_2 by (rewrite window_length; lia).
    + apply word_inj in Hw; [|done|apply window_u8|apply window_u8].
      rewrite Hw, bool_decide_eq_true_2
        by (apply compare_reference_eq; done).
      apply IH; [lia|lia|lia|]. intros j Hj. apply Hsame. lia.
Qed.

(** X8. Buffers that differ at no more than one index (the final byte, for
    one) are compared as the reference compares them, on every target and at
    every length: in a group with a single differing byte that byte decides
    in either byte order. *)
Lemma fast_memcmp_single_difference t a b len k :
  (len ≤ length a)%nat → (len ≤ length b)%nat →
  (∀ j, (j < len)%nat → j ≠ k → a !! j = b !! j) →
  fast_memcmp t a b len
    = Some (compare_reference (window a 0 len) (window b 0 len)).
Proof.
  intros Ha Hb Hsame. apply (memcmp_words_single _ a b k); [done|done|].
  intros j Hj. apply Hsame. lia.
Qed.

Lemma take_eq_lookup {A} (l k : list A) n :
  take n l = take n k ↔ ∀ i, (i < n)%nat → l !! i = k !! i.
Proof.
  split.
  - intros E i Hi.
    rewrite <- (lookup_take_lt l n i), <- (lookup_take_lt k n i) by done.
    by rewrite E.
  - intros H. apply list_eq. intros i. rewrite !lookup_take.
    case_decide; [by apply H | done].
Qed.

(** Buffers that differ at the final byte only, at a length that is no
    multiple of eight. *)
Example fast_memcmp_vectors :
  fast_memcmp wasm32 (bytes "hello world!") (bytes "hello world?") 12
    = Some (-1)
  ∧ fast_memcmp wasm32 (bytes "hello world?") (bytes "hello world!") 12
    = Some 1
  ∧ fast_memcmp wasm32 (bytes "hello world!") (bytes "hello world?") 11
    = Some 0
  ∧ fast_memcmp wasm32 (bytes "hello") (bytes "hello") 6 = None.
Proof. repeat split; vm_compute; reflexivity. Qed.

(** C2 (the code departs from the claim). On the little-endian target the
    first loop orders two differing words by their last differing byte:
    for a = 01 02 00 00 00 00 00 00 and b = 02 01 00 00 00 00 00 00 the
    loaded words are 0x0201 and 0x0102 and the function returns 1
    (greater), while the reference scan of the claim answers -1 (less) at
    index 0. *)
Theorem fast_memcmp_word_order :
  let a := [x01; x02; x00; x00; x00; x00; x00; x00] in
  let b := [x02; x01; x00; x00; x00; x00; x00; x00] in
  fast_memcmp wasm32 a b 8 = Some 1 ∧
  compare_reference (window a 0 8) (window b 0 8) = -1.
Proof. split; vm_compute; reflexivity. Qed.

(** C7. On buffers that hold [len] valid bytes, comparing a buffer with
    itself answers equal, and swapping the two buffers negates the
    answer: less and greater swap, equal stays equal. *)
Theorem fast_memcmp_reflexive_antisymmetric t a b len :
  (len ≤ length a)%nat → (len ≤ length b)%nat →
  fast_memcmp t a a len = Some 0 ∧
  ∃ r, (r = -1 ∨ r = 0 ∨ r = 1)
       ∧ fast_memcmp t a b len = Some r
       ∧ fast_memcmp t b a len = Some (- r).
Proof.
  intros Ha Hb. unfold fast_memcmp. split.
  - destruct (memcmp_words_spec (endian t) a a len 0) as (r & E & _ & Hr);
      [done|done|].
    rewrite E. f_equal. by apply Hr.
  - destruct (memcmp_words_spec (endian t) a b len 0) as (r & E & Hs & _);
      [done|done|].
    exists r. split; [done|]. split; [done|]. by apply memcmp_words_swap.
Qed.

Lemma fast_memcmp_reflexive_antisymmetric_witness :
  fast_memcmp wasm32 [x61; x62; x63] [x61; x62; x63] 3 = Some 0 ∧
  ∃ r, (r = -1 ∨ r = 0 ∨ r = 1)
       ∧ fast_memcmp wasm32 [x61; x62; x63] [x61; x7a; x63] 3 = Some r
       ∧ fast_memcmp wasm32 [x61; x7a; x63] [x61; x62; x63] 3 = Some (- r).
Proof.
  apply (fast_memcmp_reflexive_antisymmetric wasm32
           [x61; x62; x63] [x61; x7a; x63] 3); simpl; lia.
Defined.

(** C9. On buffers that hold [len] valid bytes the function returns, and
    it returns 0 (equal) exactly when the two buffers hold the same byte
    at every index below [len], whatever the byte order of the target. *)
Theorem fast_memcmp_equal_iff t a b len :
  (len ≤ length a)%nat → (len ≤ length b)%nat →
  ∃ r, fast_memcmp t a b len = Some r
       ∧ (r = 0 ↔ ∀ i, (i < len)%nat → a !! i = b !! i).
Proof.
  intros Ha Hb.
  destruct (memcmp_words_spec (endian t) a b len 0) as (r & E & _ & Hr);
    [done|done|].
  exists r. split; [done|].
  by rewrite Hr, window_inj, take_eq_lookup.
Qed.

Lemma fast_memcmp_equal_iff_witness :
  ∃ r, fast_memcmp wasm32 [x61; x62; x63] [x61; x62; x64] 2 = Some r
       ∧ (r = 0 ↔ ∀ i, (i < 2)%nat →
                    [x61; x62; x63] !! i = [x61; x62; x64] !! i).
Proof.
  apply (fast_memcmp_equal_iff wasm32 [x61; x62; x63] [x61; x62; x64] 2);
    simpl; lia.
Defined.

(** ** Pattern search *)

Lemma land_below_shifted a x k :
  0 ≤ k → 0 ≤ a < 2 ^ k → Z.land a (x * 2 ^ k) = 0.
Proof.
  intros Hk Ha. apply Z.bits_inj'. intros n Hn.
  rewrite Z.land_spec, Z.bits_0.
  destruct (Z.lt_ge_cases n k).
  - rewrite Z.mul_pow2_bits_low by done. apply andb_false_r.
  - rewrite <- (Z.mod_small a (2 ^ k)) by done.
    rewrite Z.mod_pow2_bits_high by lia. done.
Qed.

(** One step of the packing loop adds the byte at its place. *)
Lemma pack_step pattern x j :
  0 ≤ j ≤ 7 → is_u8 x → 0 ≤ pattern < 2 ^ (8 * j) →
  Z.lor pattern (Z.shiftl x (j * 8) mod 2 ^ 64) = pattern + 2 ^ (8 * j) * x.
Proof.
  intros Hj Hx Hp. unfold is_u8 in Hx.
  rewrite Z.shiftl_mul_pow2 by lia. replace (j * 8) with (8 * j) by lia.
  assert (0 < 2 ^ (8 * j) ≤ 2 ^ 56)
    by (split; [apply Z.pow_pos_nonneg | apply Z.pow_le_mono_r]; lia).
  rewrite Z.mod_small by (change (2 ^ 64) with (256 * 2 ^ 56); nia).
  rewrite <- Z.add_nocarry_lor by (apply land_below_shifted; lia). lia.
Qed.

Lemma pack_loop_spec p base n j pattern :
  (base + j + n ≤ length p)%nat → (j + n ≤ 8)%nat →
  0 ≤ pattern < 2 ^ (8 * Z.of_nat j) →
  pack_loop p base n j pattern
    = Some (pattern + 2 ^ (8 * Z.of_nat j) * pack_le (window p (base + j) n)).
Proof.
  revert j pattern. induction n as [|n IH]; intros j pattern Hlen Hj Hp.
  - simpl. f_equal. lia.
  - simpl pack_loop.
    destruct (read_lt p (base + j)) as (c & Hc & ->); [lia|].
    cbn [mbind option_bind].
    pose proof (u8_range c) as Hu.
    rewrite pack_step by (done || lia).
    rewrite IH.
    + rewrite (window_S p (base + j) n c Hc).
      change (pack_le (u8 c :: ?l)) with (u8 c + 256 * pack_le l).
      replace (base + S j)%nat with (S (base + j)) by lia.
      replace (8 * Z.of_nat (S j)) with (8 * Z.of_nat j + 8) by lia.
      rewrite Z.pow_add_r by lia. f_equal. change (2 ^ 8) with 256. ring.
    + lia.
    + lia.
    + replace (8 * Z.of_nat (S j)) with (8 * Z.of_nat j + 8) by lia.
      rewrite Z.pow_add_r by lia. change (2 ^ 8) with 256. nia.
Qed.

(** The packed pattern of [n ≤ 8] bytes is their little-endian value. *)
Lemma pack_loop_window p base n :
  (base + n ≤ length p)%nat → (n ≤ 8)%nat →
  pack_loop p base n 0 0 = Some (pack_le (window p base n)).
Proof.
  intros Hlen Hn. rewrite pack_loop_spec by (simpl; lia).
  f_equal. rewrite Nat.add_0_r. simpl. lia.
Qed.

Lemma pack_loop_agree p q base n j pattern :
  agree (base + j + n) p q →
  pack_loop p base n j pattern = pack_loop q base n j pattern.
Proof.
  revert j pattern. induction n as [|n IH]; intros j pattern H; simpl; [done|].
  rewrite (H (base + j)%nat) by lia.
  destruct (read q (base + j)) as [x|]; [|done]. simpl.
  apply IH. intros k Hk. apply H. lia.
Qed.

Lemma matches_at_window haystack needle needle_len i :
  matches_at haystack needle needle_len i
  ↔ window haystack i needle_len = window needle 0 needle_len.
Proof.
  unfold matches_at, window. rewrite drop_0. split; [by intros ->|].
  apply (inj (fmap u8)).
Qed.

Section search.
Context (t : target) (haystack needle : list byte) (needle_len : nat).
Hypothesis needle_valid : (needle_len ≤ length needle)%nat.

Lemma search_answer_here i n :
  matches_at haystack needle needle_len i →
  search_answer t haystack needle needle_len i (i + S n) (Z.of_nat i).
Proof.
  intros H. right. exists i. repeat split; [lia|lia|done|]. intros j Hj. lia.
Qed.

Lemma search_answer_next i n r :
  ¬ matches_at haystack needle needle_len i →
  search_answer t haystack needle needle_len (S i) (S i + n) r →
  search_answer t haystack needle needle_len i (i + S n) r.
Proof.
  intros Hi [[-> Hno]|(k & -> & Hk & Hm & Hno)].
  - left. split; [done|]. intros k Hk.
    destruct (decide (k = i)) as [->|]; [done|]. apply Hno. lia.
  - right. exists k. repeat split; [lia|lia|done|]. intros j Hj.
    destruct (decide (j = i)) as [->|]; [done|]. apply Hno. lia.
Qed.

Lemma search_answer_none i :
  search_answer t haystack needle needle_len i (i + 0) (NOT_FOUND t).
Proof. left. split; [done|]. intros k Hk. lia. Qed.

(** The loop of the packed path. *)
Lemma search_small_spec n i :
  in_haystack haystack needle_len n i → (needle_len ≤ 8)%nat →
  ∃ r, search_small t haystack needle_len
         (pack_le (window needle 0 needle_len)) n i = Some r
       ∧ search_answer t haystack needle needle_len i (i + n) r.
Proof using needle_valid.
  unfold in_haystack. revert i. induction n as [|n IH]; intros i Hlen H8.
  - eexists. split; [done|]. apply search_answer_none.
  - simpl search_small.
    rewrite pack_loop_window by lia. cbn [mbind option_bind].
    case_bool_decide as Hp.
    + eexists. split; [done|]. apply search_answer_here.
      apply matches_at_window.
      apply pack_le_inj; try apply window_u8; [|done].
      rewrite !window_length; lia.
    + destruct (IH (S i)) as (r & -> & Hr); [lia|done|].
      exists r. split; [done|]. apply search_answer_next; [|done].
      intros Hm%matches_at_window. by rewrite Hm in Hp.
Qed.

(** The loop of the comparator path. *)
Lemma search_large_spec n i :
  in_haystack haystack needle_len n i →
  ∃ r, search_large t haystack needle needle_len n i = Some r
       ∧ search_answer t haystack needle needle_len i (i + n) r.
Proof using needle_valid.
  unfold in_haystack. revert i. induction n as [|n IH]; intros i Hlen.
  - eexists. split; [done|]. apply search_answer_none.
  - simpl search_large. unfold fast_memcmp.
    destruct (memcmp_words_spec (endian t) (drop i haystack) needle
                needle_len 0) as (c & -> & _ & Hc);
      [rewrite length_drop; lia|lia|].
    cbn [mbind option_bind].
    assert (Hm : c = 0 ↔ matches_at haystack needle needle_len i).
    { rewrite Hc, matches_at_window. unfold window. by rewrite !drop_0. }
    case_bool_decide as Hz.
    + eexists. split; [done|]. apply search_answer_here. by apply Hm.
    + destruct (IH (S i)) as (r & -> & Hr); [lia|].
      exists r. split; [done|]. apply search_answer_next; [|done].
      by rewrite <- Hm.
Qed.
End search.

(** The search vectors of the specification, and one on the comparator
    path. *)
Example find_pattern_vectors :
  find_pattern wasm32 (bytes "hello world") 11 (bytes "world") 5 = Some 6
  ∧ find_pattern wasm32 (bytes "hello") 5 (bytes "xyz") 3
      = Some (NOT_FOUND wasm32)
  ∧ find_pattern wasm32 (bytes "abc") 3 (bytes "") 0 = Some (NOT_FOUND wasm32)
  ∧ find_pattern wasm32 (bytes "aa") 2 (bytes "aaa") 3
      = Some (NOT_FOUND wasm32)
  ∧ find_pattern wasm32 (bytes "aXaXa") 5 (bytes "a") 1 = Some 0
  ∧ find_pattern wasm32 (bytes "hello world, hello world") 24
      (bytes "lo world, hel") 13 = Some 3
  ∧ NOT_FOUND wasm32 = 0xFFFFFFFF.
Proof. repeat split; vm_compute; reflexivity. Qed.

(** A declared length beyond the valid bytes leaves the result undefined. *)
Example find_pattern_out_of_bounds :
  find_pattern wasm32 (bytes "hello") 6 (bytes "xyz") 3 = None.
Proof. vm_compute. reflexivity. Qed.

Lemma NOT_FOUND_above t n :
  Z.of_nat n < 2 ^ size_bits t → Z.of_nat n ≤ NOT_FOUND t.
Proof.
  intros H. unfold NOT_FOUND.
  assert (0 < 2 ^ size_bits t) by lia.
  replace (-1) with (2 ^ size_bits t - 1 + (-1) * 2 ^ size_bits t) by lia.
  rewrite Z.mod_add, Z.mod_small by lia. lia.
Qed.

(** C3. For a non-empty needle no longer than the haystack the search
    returns the smallest offset at which the needle's bytes equal the
    haystack's, and the not-found sentinel when there is no such offset,
    on the packed path (needle length at most 8) and on the comparator
    path alike; the sentinel differs from every offset a match can have. *)
Theorem find_pattern_leftmost t haystack haystack_len needle needle_len :
  (haystack_len ≤ length haystack)%nat → (needle_len ≤ length needle)%nat →
  (0 < needle_len ≤ haystack_len)%nat →
  Z.of_nat haystack_len < 2 ^ size_bits t →
  ∃ r, find_pattern t haystack haystack_len needle needle_len = Some r
    ∧ ((r = NOT_FOUND t
        ∧ ∀ k, (k + needle_len ≤ haystack_len)%nat →
               ¬ matches_at haystack needle needle_len k)
       ∨ (∃ k, r = Z.of_nat k ∧ (k + needle_len ≤ haystack_len)%nat
               ∧ matches_at haystack needle needle_len k
               ∧ ∀ j, (j < k)%nat → ¬ matches_at haystack needle needle_len j))
    ∧ ∀ k, (k + needle_len ≤ haystack_len)%nat → Z.of_nat k ≠ NOT_FOUND t.
Proof.
  intros Hh Hn Hlen Hsz. unfold find_pattern.
  rewrite bool_decide_eq_false_2 by lia.
  assert (Hans : ∀ r,
    search_answer t haystack needle needle_len 0
      (0 + (haystack_len - needle_len + 1)) r →
    (r = NOT_FOUND t
        ∧ ∀ k, (k + needle_len ≤ haystack_len)%nat →
               ¬ matches_at haystack needle needle_len k)
       ∨ (∃ k, r = Z.of_nat k ∧ (k + needle_len ≤ haystack_len)%nat
               ∧ matches_at haystack needle needle_len k
               ∧ ∀ j, (j < k)%nat → ¬ matches_at haystack needle needle_len j)).
  { intros r [[-> Hno]|(k & -> & Hk & Hm & Hno)].
    - left. split; [done|]. intros k Hk. apply Hno. lia.
    - right. exists k. repeat split; [lia|done|]. intros j Hj. apply Hno. lia. }
  assert (Hnf : ∀ k, (k + needle_len ≤ haystack_len)%nat →
                     Z.of_nat k ≠ NOT_FOUND t).
  { intros k Hk. pose proof (NOT_FOUND_above t haystack_len Hsz). lia. }
  case_bool_decide as H8.
  - rewrite pack_loop_window by lia. cbn [mbind option_bind].
    destruct (search_small_spec t haystack needle needle_len Hn
                (haystack_len - needle_len + 1) 0) as (r & -> & Hr);
      [unfold in_haystack; lia|done|].
    exists r. auto.
  - destruct (search_large_spec t haystack needle needle_len Hn
                (haystack_len - needle_len + 1) 0) as (r & -> & Hr);
      [unfold in_haystack; lia|].
    exists r. auto.
Qed.

Lemma find_pattern_leftmost_witness :
  ∃ r, find_pattern wasm32 (bytes "aXaXa") 5 (bytes "Xa") 2 = Some r
    ∧ ((r = NOT_FOUND wasm32
        ∧ ∀ k, (k + 2 ≤ 5)%nat → ¬ matches_at (bytes "aXaXa") (bytes "Xa") 2 k)
       ∨ (∃ k, r = Z.of_nat k ∧ (k + 2 ≤ 5)%nat
               ∧ matches_at (bytes "aXaXa") (bytes "Xa") 2 k
               ∧ ∀ j, (j < k)%nat → ¬ matches_at (bytes "aXaXa") (bytes "Xa") 2 j))
    ∧ ∀ k, (k + 2 ≤ 5)%nat → Z.of_nat k ≠ NOT_FOUND wasm32.
Proof.
  apply (find_pattern_leftmost wasm32 (bytes "aXaXa") 5 (bytes "Xa") 2);
    simpl; lia.
Defined.

(** C4. With an empty needle, and with a needle longer than the haystack,
    the search returns the not-found sentinel, whatever the buffers hold;
    the sentinel is no offset into the haystack. *)
Theorem find_pattern_degenerate t haystack haystack_len needle needle_len :
  (needle_len = 0 ∨ haystack_len < needle_len)%nat →
  find_pattern t haystack haystack_len needle needle_len = Some (NOT_FOUND t)
  ∧ (Z.of_nat haystack_len < 2 ^ size_bits t →
     ∀ k, (k < haystack_len)%nat → Z.of_nat k ≠ NOT_FOUND t).
Proof.
  intros H. split.
  - unfold find_pattern. by rewrite bool_decide_eq_true_2.
  - intros Hsz k Hk. pose proof (NOT_FOUND_above t haystack_len Hsz). lia.
Qed.

Lemma find_pattern_degenerate_witness :
  (find_pattern wasm32 (bytes "abc") 3 [] 0 = Some (NOT_FOUND wasm32)
   ∧ (Z.of_nat 3 < 2 ^ size_bits wasm32 →
      ∀ k, (k < 3)%nat → Z.of_nat k ≠ NOT_FOUND wasm32))
  ∧ (find_pattern wasm32 (bytes "aa") 2 (bytes "aaa") 3 = Some (NOT_FOUND wasm32)
     ∧ (Z.of_nat 2 < 2 ^ size_bits wasm32 →
        ∀ k, (k < 2)%nat → Z.of_nat k ≠ NOT_FOUND wasm32)).
Proof.
  split.
  - apply (find_pattern_degenerate wasm32 (bytes "abc") 3 [] 0). lia.
  - apply (find_pattern_degenerate wasm32 (bytes "aa") 2 (bytes "aaa") 3). lia.
Defined.

(** ** Frequency histogram *)

Lemma occurrences_cons d x l :
  occurrences d (x :: l)
    = ((if bool_decide (x = d) then 1 else 0) + occurrences d l)%nat.
Proof.
  unfold occurrences. rewrite filter_cons.
  case_decide; case_bool_decide; done.
Qed.

Lemma occurrences_le d l : (occurrences d l ≤ length l)%nat.
Proof. apply length_filter. Qed.

Lemma count_loop_spec t data n i counts unique_count :
  (i + n ≤ length data)%nat → length counts = 256%nat →
  (∀ k c, counts !! k = Some c → 0 ≤ c < 2 ^ 32) →
  ∃ counts' unique_count',
    count_loop t data n i counts unique_count = Some (counts', unique_count')
    ∧ length counts' = 256%nat
    ∧ ∀ d, is_u8 d →
        counts' !! Z.to_nat d
          = Some ((default 0 (counts !! Z.to_nat d)
                   + Z.of_nat (occurrences d (window data i n))) mod 2 ^ 32).
Proof.
  revert i counts unique_count.
  induction n as [|n IH]; intros i counts u Hlen H256 Hrange.
  - exists counts, u. split; [done|]. split; [done|]. intros d Hd.
    unfold is_u8 in Hd.
    destruct (lookup_lt_is_Some_2 counts (Z.to_nat d)) as [c Hc]; [lia|].
    rewrite Hc. simpl. f_equal. rewrite Z.add_0_r, Z.mod_small; [done|].
    by eapply Hrange.
  - simpl count_loop.
    destruct (read_lt data i) as (c & Hc & ->); [lia|].
    cbn [mbind option_bind].
    pose proof (u8_range c) as Hu.
    set (old := default 0 (counts !! Z.to_nat (u8 c))).
    edestruct (IH (S i) (<[Z.to_nat (u8 c) := (old + 1) mod 2 ^ 32]> counts))
      as (counts' & u' & -> & Hl & Hcounts).
    + lia.
    + by rewrite length_insert.
    + intros k x Hx. destruct (decide (k = Z.to_nat (u8 c))) as [->|Hne].
      * rewrite list_lookup_insert_eq in Hx by lia. injection Hx as <-.
        apply Z.mod_pos_bound. lia.
      * rewrite list_lookup_insert_ne in Hx by done. by eapply Hrange.
    + exists counts', u'. split; [done|]. split; [done|]. intros d Hd.
      rewrite (Hcounts d Hd), (window_S data i n c Hc), occurrences_cons.
      f_equal. unfold is_u8 in Hd.
      case_bool_decide as Hdc.
      * subst d. rewrite list_lookup_insert_eq by lia. simpl.
        fold old. rewrite Z.add_mod_idemp_l by lia. f_equal. lia.
      * rewrite list_lookup_insert_ne by lia. f_equal.
Qed.

Lemma count_loop_agree t p q n i counts unique_count :
  agree (i + n) p q →
  count_loop t p n i counts unique_count
    = count_loop t q n i counts unique_count.
Proof.
  revert i counts unique_count.
  induction n as [|n IH]; intros i counts u H; simpl; [done|].
  rewrite (H i) by lia. destruct (read q i) as [d|]; [|done]. simpl.
  apply IH. intros k Hk. apply H. lia.
Qed.

(** The counting loop returns on every buffer that holds [len] valid bytes,
    with every counter the number of occurrences modulo 2^32. *)
Lemma count_frequencies_mod t data len :
  (len ≤ length data)%nat →
  ∃ counts,
    count_frequencies t data len = Some counts
    ∧ length counts = 256%nat
    ∧ ∀ d, is_u8 d →
        counts !! Z.to_nat d
          = Some (Z.of_nat (occurrences d (window data 0 len)) mod 2 ^ 32).
Proof.
  intros Hlen. unfold count_frequencies.
  destruct (count_loop_spec t data len 0 (replicate 256 0) 0)
    as (counts & u & -> & Hl & Hcounts).
  - done.
  - by rewrite length_replicate.
  - intros k c [-> _]%lookup_replicate. lia.
  - exists counts. split; [done|]. split; [done|].
    intros d Hd. rewrite (Hcounts d Hd). unfold is_u8 in Hd.
    rewrite lookup_replicate_2 by lia. done.
Qed.

(** C10. The histogram holds 32-bit counters: after the counting loop the
    counter of every byte value is the number of its occurrences in the
    buffer modulo 2^32, and for a buffer shorter than 2^32 bytes it is the
    number of occurrences itself. *)
Theorem count_frequencies_exact t data len :
  (len ≤ length data)%nat →
  ∃ counts,
    count_frequencies t data len = Some counts
    ∧ length counts = 256%nat
    ∧ (∀ d, is_u8 d →
         counts !! Z.to_nat d
           = Some (Z.of_nat (occurrences d (window data 0 len)) mod 2 ^ 32))
    ∧ (Z.of_nat len < 2 ^ 32 →
       ∀ d, is_u8 d →
         counts !! Z.to_nat d
           = Some (Z.of_nat (occurrences d (window data 0 len)))).
Proof.
  intros Hlen.
  destruct (count_frequencies_mod t data len Hlen) as (counts & E & Hl & Hc).
  exists counts. split; [done|]. split; [done|]. split; [done|].
  intros Hsmall d Hd. rewrite (Hc d Hd). f_equal. apply Z.mod_small.
  pose proof (occurrences_le d (window data 0 len)) as Hocc.
  rewrite window_length in Hocc by done. lia.
Qed.

Lemma count_frequencies_exact_witness :
  ∃ counts,
    count_frequencies wasm32 (bytes "hello") 5 = Some counts
    ∧ length counts = 256%nat
    ∧ (∀ d, is_u8 d →
         counts !! Z.to_nat d
           = Some (Z.of_nat (occurrences d (window (bytes "hello") 0 5))
                   mod 2 ^ 32))
    ∧ (Z.of_nat 5 < 2 ^ 32 →
       ∀ d, is_u8 d →
         counts !! Z.to_nat d
           = Some (Z.of_nat (occurrences d (window (bytes "hello") 0 5)))).
Proof.
  apply (count_frequencies_exact wasm32 (bytes "hello") 5). simpl. lia.
Defined.

(** At 2^32 occurrences a counter is back at zero: the bound on the length
    cannot be dropped. *)
Lemma count_frequencies_wraps t c n :
  Z.of_nat n = 2 ^ 32 →
  ∃ counts,
    count_frequencies t (replicate n c) n = Some counts
    ∧ occurrences (u8 c) (window (replicate n c) 0 n) = n
    ∧ counts !! Z.to_nat (u8 c) = Some 0.
Proof.
  intros Hn.
  destruct (count_frequencies_mod t (replicate n c) n)
    as (counts & E & _ & Hc); [by rewrite length_replicate|].
  assert (Hocc : occurrences (u8 c) (window (replicate n c) 0 n) = n).
  { unfold window. rewrite drop_0, take_replicate, Nat.min_id.
    clear. induction n as [|n IH]; [done|].
    change (replicate (S n) c) with (c :: replicate n c).
    rewrite fmap_cons, occurrences_cons, IH.
    by rewrite bool_decide_eq_true_2. }
  exists counts. split; [done|]. split; [done|].
  rewrite (Hc (u8 c) (u8_range c)), Hocc, Hn. done.
Qed.

(** ** Entropy: what does not depend on the arithmetic *)

(** The early return: no byte is read and no operation is performed. *)
Lemma calculate_entropy_empty {F} `{FloatOps F} t data :
  calculate_entropy t data 0 = Some f_zero.
Proof. reflexivity. Qed.

(** The function returns on every buffer that holds [len] valid bytes, and
    its value is the sum of the second loop over the histogram. *)
Lemma calculate_entropy_total {F} `{FloatOps F} t data len :
  (0 < len ≤ length data)%nat →
  ∃ counts,
    count_frequencies t data len = Some counts
    ∧ calculate_entropy t data len = Some (entropy_loop counts len 256 0 f_zero).
Proof.
  intros [Hpos Hlen].
  destruct (count_frequencies_mod t data len Hlen) as (counts & E & _).
  exists counts. split; [done|]. unfold calculate_entropy.
  rewrite bool_decide_eq_false_2 by lia. by rewrite E.
Qed.

(** ** Dependence on the inputs alone *)

Lemma fast_crc32_agree t p q len :
  agree len p q → fast_crc32 t p len = fast_crc32 t q len.
Proof.
  intros H. unfold fast_crc32. by rewrite (crc32_loop_agree _ p q).
Qed.

Lemma fast_memcmp_agree t a a' b b' len :
  agree len a a' → agree len b b' →
  fast_memcmp t a b len = fast_memcmp t a' b' len.
Proof. intros Ha Hb. by apply memcmp_words_agree. Qed.

Lemma search_small_agree t h h' needle_len pattern n i bound :
  (n = 0 ∨ i + n + needle_len ≤ S bound)%nat → agree bound h h' →
  search_small t h needle_len pattern n i
    = search_small t h' needle_len pattern n i.
Proof.
  revert i. induction n as [|n IH]; intros i Hb H; simpl; [done|].
  rewrite (pack_loop_agree h h') by (eapply agree_le; [|done]; lia).
  destruct (pack_loop h' i needle_len 0 0) as [hp|]; [|done]. simpl.
  case_bool_decide; [done|]. apply IH; [lia|done].
Qed.

Lemma search_large_agree t h h' needle needle' needle_len n i bound :
  (n = 0 ∨ i + n + needle_len ≤ S bound)%nat →
  agree bound h h' → agree needle_len needle needle' →
  search_large t h needle needle_len n i
    = search_large t h' needle' needle_len n i.
Proof.
  revert i. induction n as [|n IH]; intros i Hb H Hn; simpl; [done|].
  rewrite (fast_memcmp_agree t (drop i h) (drop i h') needle needle');
    [|apply agree_drop; eapply agree_le; [|done]; lia|done].
  destruct (fast_memcmp t (drop i h') needle' needle_len) as [r|]; [|done].
  simpl. case_bool_decide; [done|]. apply IH; [lia|done|done].
Qed.

Lemma find_pattern_agree t h h' haystack_len needle needle' needle_len :
  agree haystack_len h h' → agree needle_len needle needle' →
  find_pattern t h haystack_len needle needle_len
    = find_pattern t h' haystack_len needle' needle_len.
Proof.
  intros Hh Hn. unfold find_pattern.
  case_bool_decide; [done|]. case_bool_decide.
  - rewrite (pack_loop_agree needle needle') by done.
    destruct (pack_loop needle' 0 needle_len 0 0) as [np|]; [|done]. simpl.
    eapply search_small_agree; [|done]. lia.
  - eapply search_large_agree; [|done|done]. lia.
Qed.

Lemma calculate_entropy_agree {F} `{FloatOps F} t p q len :
  agree len p q → calculate_entropy t p len = calculate_entropy t q len.
Proof.
  intros Hp. unfold calculate_entropy, count_frequencies.
  by rewrite (count_loop_agree t p q).
Qed.

(** C8. Each of the four operations is a function of the bytes of its
    buffers and of their lengths alone: whenever two calls receive buffers
    with the same [n] (and [m]) bytes, whatever lies behind them in memory
    and whatever was called before, they return the same result.  No
    operation has a state to read or to change: the source has no global
    or static object, and the embedding has none. *)
Theorem operations_deterministic {F} `{FloatOps F} t
    (p p' q q' : list byte) (n m : nat) :
  take n p = take n p' → take m q = take m q' →
  fast_crc32 t p n = fast_crc32 t p' n
  ∧ calculate_entropy t p n = calculate_entropy t p' n
  ∧ find_pattern t p n q m = find_pattern t p' n q' m
  ∧ ∀ len, (len ≤ n)%nat → (len ≤ m)%nat →
      fast_memcmp t p q len = fast_memcmp t p' q' len.
Proof.
  intros Hp%agree_take Hq%agree_take. repeat split.
  - by apply fast_crc32_agree.
  - by apply calculate_entropy_agree.
  - by apply find_pattern_agree.
  - intros len Hn Hm.
    apply fast_memcmp_agree; (eapply agree_le; [|done]; done).
Qed.

Lemma operations_deterministic_witness :
  fast_crc32 wasm32 (bytes "abcX") 3 = fast_crc32 wasm32 (bytes "abcY") 3
  ∧ calculate_entropy (F := R) wasm32 (bytes "abcX") 3
      = calculate_entropy (F := R) wasm32 (bytes "abcY") 3
  ∧ find_pattern wasm32 (bytes "abcX") 3 (bytes "bcU") 2
      = find_pattern wasm32 (bytes "abcY") 3 (bytes "bcV") 2
  ∧ ∀ len, (len ≤ 3)%nat → (len ≤ 2)%nat →
      fast_memcmp wasm32 (bytes "abcX") (bytes "bcU") len
        = fast_memcmp wasm32 (bytes "abcY") (bytes "bcV") len.
Proof.
  apply (operations_deterministic (F := R) wasm32
           (bytes "abcX") (bytes "abcY") (bytes "bcU") (bytes "bcV") 3 2);
    reflexivity.
Defined.

(** ** Entropy under exact arithmetic *)

Lemma Zsum_insert l k v :
  (k < length l)%nat →
  Zsum (<[k := v]> l) = Zsum l - default 0 (l !! k) + v.
Proof.
  revert k. induction l as [|x l IH]; intros [|k] Hk; simpl in *; try lia.
  rewrite IH by lia. lia.
Qed.

Lemma Zsum_elem l c :
  Forall (λ x, 0 ≤ x) l → c ∈ l → c ≤ Zsum l.
Proof.
  induction 1 as [|x l Hx Hl IH]; intros Hc.
  - by apply elem_of_nil in Hc.
  - apply elem_of_cons in Hc as [->|Hc]; simpl.
    + assert (0 ≤ Zsum l); [|lia]. clear -Hl.
      induction Hl; simpl; [done|]. unfold Zsum in *. lia.
    + specialize (IH Hc). lia.
Qed.

(** The counters never add up to more than the bytes counted, with or
    without wrap-around. *)
Lemma count_loop_sum t data n i counts unique_count counts' unique_count' :
  length counts = 256%nat → Forall (λ c, 0 ≤ c < 2 ^ 32) counts →
  count_loop t data n i counts unique_count = Some (counts', unique_count') →
  length counts' = 256%nat
  ∧ Forall (λ c, 0 ≤ c < 2 ^ 32) counts'
  ∧ Zsum counts' ≤ Zsum counts + Z.of_nat n.
Proof.
  revert i counts unique_count.
  induction n as [|n IH]; intros i counts u H256 Hrange; simpl.
  - intros [= <- <-]. repeat split; [done|done|lia].
  - destruct (read data i) as [d|] eqn:Hd; [|done]. simpl.
    apply read_Some in Hd as (c & _ & ->). pose proof (u8_range c) as Hu.
    set (k := Z.to_nat (u8 c)).
    assert (Hk : (k < length counts)%nat) by (unfold k; lia).
    destruct (lookup_lt_is_Some_2 counts k Hk) as [old Hold].
    rewrite Hold. simpl. intros E. apply IH in E as (Hl & Hr & Hs).
    + split; [done|]. split; [done|].
      rewrite Zsum_insert, Hold in Hs by done. simpl in Hs.
      assert (0 ≤ old < 2 ^ 32)
        by (eapply (proj1 (Forall_lookup _ _) Hrange); done).
      assert ((old + 1) mod 2 ^ 32 ≤ old + 1)
        by (apply Z.mod_le; lia).
      lia.
    + by rewrite length_insert.
    + apply Forall_insert; [done|]. apply Z.mod_pos_bound. lia.
Qed.

Lemma count_frequencies_sum t data len counts :
  count_frequencies t data len = Some counts →
  length counts = 256%nat
  ∧ Forall (λ c, 0 ≤ c ≤ Z.of_nat len) counts.
Proof.
  unfold count_frequencies.
  destruct (count_loop t data len 0 (replicate 256 0) 0) as [[cs u]|] eqn:E;
    [|done].
  simpl. intros [= <-].
  apply count_loop_sum in E as (Hl & Hr & Hs).
  - split; [done|].
    assert (Hnn : Forall (λ x, 0 ≤ x) cs)
      by (eapply Forall_impl; [exact Hr|]; simpl; lia).
    apply Forall_forall. intros c Hc.
    pose proof (Zsum_elem cs c Hnn Hc).
    pose proof (proj1 (Forall_forall _ _) Hnn c Hc) as Hc0.
    change (Zsum (replicate 256 0)) with 0 in Hs. cbv beta in Hc0. lia.
  - by rewrite length_replicate.
  - apply Forall_replicate. lia.
Qed.

Lemma count_frequencies_total_sum t data len counts :
  count_frequencies t data len = Some counts → Zsum counts ≤ Z.of_nat len.
Proof.
  unfold count_frequencies.
  destruct (count_loop t data len 0 (replicate 256 0) 0) as [[cs u]|] eqn:E;
    [|done].
  simpl. intros [= <-].
  apply count_loop_sum in E as (_ & _ & Hs).
  - change (Zsum (replicate 256 0)) with 0 in Hs. lia.
  - by rewrite length_replicate.
  - apply Forall_replicate. lia.
Qed.

(** The second loop subtracts the terms of the counters in turn. *)
Lemma entropy_loop_exact counts len n i (entropy : R) :
  (i + n ≤ length counts)%nat →
  entropy_loop counts len n i entropy
    = (entropy - Rsum (entropy_term len <$> take n (drop i counts)))%R.
Proof.
  revert i entropy. induction n as [|n IH]; intros i e Hlen.
  - simpl. unfold Rsum. simpl. lra.
  - destruct (lookup_lt_is_Some_2 counts i) as [c Hc]; [lia|].
    simpl entropy_loop. rewrite Hc, IH by lia.
    rewrite (drop_S _ _ _ Hc). cbn [firstn]. rewrite fmap_cons.
    change (Rsum (?x :: ?l)) with (x + Rsum l)%R.
    generalize (Rsum (entropy_term len <$> take n (drop (S i) counts))).
    intros rest. unfold entropy_term. simpl. case_bool_decide; lra.
Qed.

Lemma ln_le_sub1 x : (0 < x)%R → (ln x <= x - 1)%R.
Proof.
  intros Hx. pose proof (exp_ineq1_le (ln x)) as H.
  rewrite exp_ln in H by done. lra.
Qed.

Lemma ln_256 : ln 256 = (8 * ln 2)%R.
Proof.
  replace 256%R with (2 ^ 8)%R by (simpl; lra).
  rewrite ln_pow by lra. simpl. lra.
Qed.

Section exact.
Context (len : nat).
Hypothesis len_pos : (0 < len)%nat.

(** Each term is non-positive, and bounded from below by the tangent of
    the logarithm at the uniform probability. *)
Lemma entropy_term_bounds c :
  0 ≤ c ≤ Z.of_nat len →
  (entropy_term len c <= 0)%R
  ∧ (- entropy_term len c * ln 2
       <= IZR c / INR len * (ln 256 - 1) + / 256)%R.
Proof using len_pos.
  intros Hc. unfold entropy_term.
  pose proof ln_lt_2 as Hln2.
  assert (HL : (0 < INR len)%R) by (apply lt_0_INR; done).
  case_bool_decide as Hpos.
  - cbv zeta. set (p := (IZR c / INR len)%R).
    assert (Hp : (0 < p <= 1)%R).
    { unfold p. split.
      - apply Rdiv_lt_0_compat; [|done]. apply (IZR_lt 0). lia.
      - apply (Rmult_le_reg_r (INR len)); [done|].
        unfold Rdiv. rewrite Rmult_assoc, Rinv_l, Rmult_1_r, Rmult_1_l by lra.
        rewrite INR_IZR_INZ. apply IZR_le. lia. }
    assert (Hlnp : (ln p <= 0)%R).
    { rewrite <- ln_1. destruct (Req_dec p 1) as [->|Hne]; [lra|].
      left. apply ln_increasing; lra. }
    replace (p * (ln p / ln 2))%R with (p * ln p / ln 2)%R by (field; lra).
    split.
    + apply Rmult_le_reg_r with (ln 2); [lra|].
      unfold Rdiv. rewrite Rmult_assoc, Rinv_l, Rmult_1_r, Rmult_0_l by lra.
      nra.
    + replace (- (p * ln p / ln 2) * ln 2)%R with (- (p * ln p))%R
        by (field; lra).
      assert (H256 : (0 < / (256 * p))%R)
        by (apply Rinv_0_lt_compat; lra).
      pose proof (ln_le_sub1 _ H256) as Ht.
      rewrite ln_Rinv, ln_mult in Ht by lra.
      assert (Hm : (p * (- (ln 256 + ln p)) <= p * (/ (256 * p) - 1))%R)
        by (apply Rmult_le_compat_l; lra).
      replace (p * (/ (256 * p) - 1))%R with (/ 256 - p)%R in Hm
        by (field; lra).
      lra.
  - assert (c = 0) as -> by lia. split; [lra|].
    unfold Rdiv. rewrite Rmult_0_l, Rmult_0_l, Ropp_0, Rmult_0_l. lra.
Qed.

Lemma entropy_sum_bounds l :
  Forall (λ c, 0 ≤ c ≤ Z.of_nat len) l →
  (Rsum (entropy_term len <$> l) <= 0)%R
  ∧ (- Rsum (entropy_term len <$> l) * ln 2
       <= IZR (Zsum l) / INR len * (ln 256 - 1) + INR (length l) / 256)%R.
Proof using len_pos.
  induction 1 as [|c l Hc _ [IH1 IH2]].
  - unfold Rsum. simpl. lra.
  - destruct (entropy_term_bounds c Hc) as [H1 H2].
    change (Rsum (entropy_term len <$> c :: l))
      with (entropy_term len c + Rsum (entropy_term len <$> l))%R.
    change (Zsum (c :: l)) with (c + Zsum l).
    change (length (c :: l)) with (S (length l)).
    rewrite plus_IZR, S_INR. split; [lra|].
    unfold Rdiv in *. lra.
Qed.
End exact.

(** Under exact arithmetic the function returns a value between 0 and 8
    on every buffer that holds [len] valid bytes. *)
Lemma calculate_entropy_exact_range t data len :
  (len ≤ length data)%nat →
  ∃ h : R, calculate_entropy t data len = Some h ∧ (0 <= h <= 8)%R.
Proof.
  intros Hlen. destruct (decide (len = 0%nat)) as [->|Hpos].
  - exists 0%R. split; [done|]. lra.
  - destruct (calculate_entropy_total (F := R) t data len)
      as (counts & Hc & ->); [lia|].
    destruct (count_frequencies_sum t data len counts Hc) as [H256 Hr].
    pose proof (count_frequencies_total_sum t data len counts Hc) as Hs.
    eexists. split; [done|].
    rewrite entropy_loop_exact by lia.
    rewrite drop_0, take_ge by lia.
    destruct (entropy_sum_bounds len ltac:(lia) counts Hr) as [H1 H2].
    rewrite H256 in H2. change (f_zero) with 0%R.
    pose proof ln_lt_2 as Hln2. pose proof ln_256 as Hln.
    assert (HL : (0 < INR len)%R) by (apply lt_0_INR; lia).
    assert (Hsum : (IZR (Zsum counts) / INR len <= 1)%R).
    { apply (Rmult_le_reg_r (INR len)); [done|].
      unfold Rdiv. rewrite Rmult_assoc, Rinv_l, Rmult_1_r, Rmult_1_l by lra.
      rewrite INR_IZR_INZ. by apply IZR_le. }
    assert (H256R : INR 256 = 256%R) by (rewrite INR_IZR_INZ; reflexivity).
    rewrite H256R in H2.
    split; [lra|].
    apply Rmult_le_reg_r with (ln 2); [lra|]. nra.
Qed.

(** * Further properties of the code *)

(** ** [fast_crc32]: the register *)

Lemma lxor_range a b n :
  0 ≤ n → 0 ≤ a < 2 ^ n → 0 ≤ b < 2 ^ n → 0 ≤ Z.lxor a b < 2 ^ n.
Proof.
  intros Hn Ha Hb.
  assert (E : Z.lxor a b = Z.lxor a b mod 2 ^ n).
  { apply Z.bits_inj'. intros m Hm. destruct (Z.lt_ge_cases m n).
    - by rewrite Z.mod_pow2_bits_low.
    - rewrite Z.mod_pow2_bits_high, Z.lxor_spec by lia.
      rewrite <- (Z.mod_small a (2 ^ n)), <- (Z.mod_small b (2 ^ n)) by done.
      by rewrite !Z.mod_pow2_bits_high by lia. }
  rewrite E. apply Z.mod_pos_bound. lia.
Qed.

Lemma shiftr_range c k : 0 ≤ k → 0 ≤ c < 2 ^ 32 → 0 ≤ Z.shiftr c k < 2 ^ 32.
Proof.
  intros Hk Hc. rewrite Z.shiftr_div_pow2 by done.
  assert (0 < 2 ^ k) by (apply Z.pow_pos_nonneg; lia).
  split; [apply Z.div_pos; lia|].
  apply Z.div_lt_upper_bound; [done|]. nia.
Qed.

Lemma crc_table_range k : 0 ≤ default 0 (crc_table !! k) < 2 ^ 32.
Proof.
  assert (H : Forall (λ x, 0 ≤ x < 2 ^ 32) crc_table)
    by (apply (bool_decide_unpack _); vm_compute; reflexivity).
  destruct (crc_table !! k) as [x|] eqn:E; simpl; [|lia].
  by eapply (proj1 (Forall_lookup _ _) H).
Qed.

Lemma table_step_range crc d :
  0 ≤ crc < 2 ^ 32 → 0 ≤ table_step crc d < 2 ^ 32.
Proof.
  intros Hc. unfold table_step.
  apply lxor_range; [lia|apply crc_table_range|apply shiftr_range; lia].
Qed.

Lemma crc32c_round_range c : 0 ≤ c < 2 ^ 32 → 0 ≤ crc32c_round c < 2 ^ 32.
Proof.
  intros Hc. unfold crc32c_round. pose proof (shiftr_range c 1 ltac:(lia) Hc).
  destruct (Z.odd c); [|done]. apply lxor_range; [lia|done|lia].
Qed.

Lemma builtin_ia32_crc32qi_range crc d :
  0 ≤ crc < 2 ^ 32 → is_u8 d → 0 ≤ builtin_ia32_crc32qi crc d < 2 ^ 32.
Proof.
  intros Hc Hd. unfold builtin_ia32_crc32qi, is_u8 in *.
  assert (H0 : 0 ≤ Z.lxor crc d < 2 ^ 32) by (apply lxor_range; lia).
  revert H0. generalize (Z.lxor crc d). intros x Hx.
  do 8 (apply crc32c_round_range in Hx). exact Hx.
Qed.

Lemma crc32_loop_range (step : Z → Z → Z) data n i crc r :
  (∀ c d, 0 ≤ c < 2 ^ 32 → is_u8 d → 0 ≤ step c d < 2 ^ 32) →
  0 ≤ crc < 2 ^ 32 → crc32_loop step data n i crc = Some r →
  0 ≤ r < 2 ^ 32.
Proof.
  intros Hstep. revert i crc. induction n as [|n IH]; intros i crc Hc; simpl.
  - by intros [= <-].
  - destruct (read data i) as [d|] eqn:Hd; [|done]. simpl.
    apply read_Some in Hd as (c & _ & ->).
    apply IH, Hstep; [done|apply u8_range].
Qed.

Lemma crc32_loop_split step data n m i crc :
  crc32_loop step data (n + m) i crc
    = crc32_loop step data n i crc ≫= crc32_loop step data m (i + n).
Proof.
  revert i crc. induction n as [|n IH]; intros i crc; simpl.
  - by rewrite Nat.add_0_r.
  - destruct (read data i) as [d|]; [|done]. simpl.
    rewrite IH. by replace (S i + n)%nat with (i + S n)%nat by lia.
Qed.

Lemma crc32_loop_drop step data k n i crc :
  crc32_loop step data n (k + i) crc = crc32_loop step (drop k data) n i crc.
Proof.
  revert i crc. induction n as [|n IH]; intros i crc; simpl; [done|].
  rewrite read_drop. destruct (read data (k + i)) as [d|]; [|done]. simpl.
  rewrite <- IH. by replace (S (k + i)) with (k + S i)%nat by lia.
Qed.

Lemma crc32_loop_defined step data n i crc :
  is_Some (crc32_loop step data n i crc) ↔ (n = 0 ∨ i + n ≤ length data)%nat.
Proof.
  revert i crc. induction n as [|n IH]; intros i crc; simpl.
  - split; [auto|by eexists].
  - unfold read. destruct (data !! i) as [c|] eqn:Hc; simpl.
    + apply lookup_lt_Some in Hc. rewrite IH. lia.
    + apply lookup_ge_None in Hc. split; [by intros [? ?]|lia].
Qed.

(** X1. Whatever [fast_crc32] returns fits a [uint32_t]: on both paths
    the register stays below 2^32 through every step, no operation of
    the loop needs a wrap-around. *)
Theorem fast_crc32_range t data len r :
  fast_crc32 t data len = Some r → 0 ≤ r < 2 ^ 32.
Proof.
  unfold fast_crc32.
  destruct (crc32_loop _ data len 0 0xFFFFFFFF) as [crc|] eqn:E; [|done].
  simpl. intros [= <-].
  apply lxor_range; [lia| |lia].
  eapply (crc32_loop_range _ data len 0%nat 0xFFFFFFFF); [|lia|exact E].
  destruct (sse4_2 t).
  - apply builtin_ia32_crc32qi_range.
  - intros c d Hc _. by apply table_step_range.
Qed.

Lemma fast_crc32_range_witness :
  fast_crc32 x86_64_sse42 check_vector 9 = Some 0xE3069283
  ∧ 0 ≤ 0xE3069283 < 2 ^ 32.
Proof.
  split; [reflexivity|].
  apply (fast_crc32_range x86_64_sse42 check_vector 9). reflexivity.
Defined.

(** X2. The checksum of a concatenation resumes from the checksum of its
    first part: complementing that checksum gives back the register, and
    the loop goes on over the second part from there. *)
Theorem fast_crc32_resume t a b ra :
  fast_crc32 t a (length a) = Some ra →
  fast_crc32 t (a ++ b) (length a + length b)
    = crc ← crc32_loop (if sse4_2 t then builtin_ia32_crc32qi else table_step)
               b (length b) 0 (Z.lxor ra 0xFFFFFFFF);
      Some (Z.lxor crc 0xFFFFFFFF).
Proof.
  unfold fast_crc32. set (step := if sse4_2 t then _ else _).
  destruct (crc32_loop step a (length a) 0 0xFFFFFFFF) as [ca|] eqn:Ea;
    [|done].
  simpl. intros [= <-].
  rewrite crc32_loop_split.
  rewrite (crc32_loop_agree step (a ++ b) a).
  - rewrite Ea. simpl.
    rewrite <- (Nat.add_0_r (length a)) at 1.
    rewrite crc32_loop_drop, drop_app_length.
    by rewrite Z.lxor_assoc, Z.lxor_nilpotent, Z.lxor_0_r.
  - intros k Hk. unfold read. by rewrite lookup_app_l by lia.
Qed.

Lemma fast_crc32_resume_witness :
  fast_crc32 wasm32 (bytes "1234" ++ bytes "56789") (4 + 5)
    = crc ← crc32_loop table_step (bytes "56789") 5 0
               (Z.lxor 0xFFFFFFFF 0xFFFFFFFF);
      Some (Z.lxor crc 0xFFFFFFFF).
Proof.
  apply (fast_crc32_resume wasm32 (bytes "1234") (bytes "56789") 0xFFFFFFFF).
  reflexivity.
Defined.

(** X3. [fast_crc32] has a result exactly when the declared length stays
    within the valid bytes: it reads every byte below [len] and none
    beyond. *)
Theorem fast_crc32_defined t data len :
  is_Some (fast_crc32 t data len) ↔ (len ≤ length data)%nat.
Proof.
  unfold fast_crc32. set (step := if sse4_2 t then _ else _).
  pose proof (crc32_loop_defined step data len 0 0xFFFFFFFF) as H.
  destruct (crc32_loop step data len 0 0xFFFFFFFF) as [c|]; simpl.
  - split; [intros _|by eexists].
    destruct (proj1 H) as [->|]; [by eexists|lia|lia].
  - split; [by intros [? ?]|]. intros Hl.
    destruct (proj2 H) as [? ?]; [right; lia|done].
Qed.

(** ** [fast_memcmp]: the order it defines *)

Lemma word_key_lt e rem xs : (rem < 8)%nat → word_key e rem xs = xs.
Proof. intros H. do 8 (destruct rem as [|rem]; [reflexivity|]). lia. Qed.

Lemma word_key_ge e rem xs :
  word_key e (8 + rem) xs
    = group_order e (take 8 xs) ++ word_key e rem (drop 8 xs).
Proof. reflexivity. Qed.

Lemma group_order_length e bs : length (group_order e bs) = length bs.
Proof. destruct e; simpl; by rewrite ?length_reverse. Qed.

Lemma word_key_length e rem xs : length (word_key e rem xs) = length xs.
Proof.
  revert xs. induction (lt_wf rem) as [rem _ IH]. intros xs.
  destruct (decide (rem < 8)%nat) as [H|H].
  - by rewrite word_key_lt.
  - replace rem with (8 + (rem - 8))%nat by lia.
    rewrite word_key_ge, length_app, IH, group_order_length by lia.
    rewrite <- (take_drop 8 xs) at 3. by rewrite length_app.
Qed.

Lemma word_order_group e xs ys :
  length xs = length ys → Forall is_u8 xs → Forall is_u8 ys →
  word e xs ≠ word e ys →
  (if bool_decide (word e xs < word e ys) then -1 else 1)
    = compare_reference (group_order e xs) (group_order e ys).
Proof. intros. rewrite word_order by done. by destruct e. Qed.

Lemma take_window p i n m :
  (n ≤ m)%nat → take n (window p i m) = window p i n.
Proof.
  intros H. unfold window. rewrite <- fmap_take, take_take.
  by rewrite Nat.min_l.
Qed.

Lemma drop_window p i n m :
  drop n (window p i (n + m)) = window p (i + n) m.
Proof.
  unfold window. rewrite <- fmap_drop. f_equal.
  rewrite <- take_take_drop, drop_drop.
  destruct (decide (i + n ≤ length p)%nat) as [H|H].
  - rewrite drop_app_length'; [done|]. rewrite length_take, length_drop. lia.
  - rewrite (drop_ge p (i + n)) by lia. rewrite take_nil, app_nil_r.
    apply drop_ge. rewrite length_take, length_drop. lia.
Qed.

(** The function is the reference comparison of the sort keys. *)
Lemma memcmp_words_key e a b rem i :
  (i + rem ≤ length a)%nat → (i + rem ≤ length b)%nat →
  memcmp_words e a b rem i
    = Some (compare_reference (word_key e rem (window a i rem))
                              (word_key e rem (window b i rem))).
Proof.
  revert i. induction (lt_wf rem) as [rem _ IH]. intros i Ha Hb.
  words_cases rem.
  - rewrite !word_key_lt by done. by apply memcmp_bytes_spec.
  - rewrite !word_key_ge, !take_window, !drop_window by lia.
    rewrite !load64_Some by lia. cbn [mbind option_bind].
    assert (Hl : length (window a i 8) = length (window b i 8))
      by (rewrite !window_length; lia).
    rewrite compare_reference_app by (by rewrite !group_order_length).
    case_bool_decide as Hw.
    + rewrite word_order_group; try apply window_u8; try done.
      rewrite bool_decide_eq_false_2; [done|].
      rewrite compare_reference_eq by (by rewrite !group_order_length).
      intros E. destruct Hw. f_equal.
      destruct e; simpl in E; [by apply (inj reverse)|done].
    + apply word_inj in Hw; [|done|apply window_u8|apply window_u8].
      rewrite Hw, bool_decide_eq_true_2
        by (by apply compare_reference_eq).
      apply IH; lia.
Qed.

Lemma compare_reference_trans xs ys zs :
  length xs = length ys → length ys = length zs →
  compare_reference xs ys ≤ 0 → compare_reference ys zs ≤ 0 →
  compare_reference xs zs ≤ 0
  ∧ (compare_reference xs zs = 0 →
     compare_reference xs ys = 0 ∧ compare_reference ys zs = 0).
Proof.
  revert ys zs. induction xs as [|x xs IH]; intros [|y ys] [|z zs] H1 H2;
    try discriminate; [done|].
  injection H1 as H1. injection H2 as H2. simpl.
  repeat case_bool_decide; subst; try lia; intros Hxy Hyz; try lia.
  by apply IH.
Qed.

(** X4. On every target [fast_memcmp] is the reference comparison of the
    buffers' sort keys: each complete group of eight bytes is weighed in
    the byte order of the target (from its last byte down on a
    little-endian target), the tail byte by byte. *)
Theorem fast_memcmp_sort_key t a b len :
  (len ≤ length a)%nat → (len ≤ length b)%nat →
  fast_memcmp t a b len
    = Some (compare_reference (word_key (endian t) len (window a 0 len))
                              (word_key (endian t) len (window b 0 len))).
Proof. intros Ha Hb. by apply memcmp_words_key. Qed.

Lemma fast_memcmp_sort_key_witness :
  fast_memcmp wasm32 (bytes "abcdefghij") (bytes "abcdefgXij") 10
    = Some (compare_reference
              (word_key LittleEndian 10 (window (bytes "abcdefghij") 0 10))
              (word_key LittleEndian 10 (window (bytes "abcdefgXij") 0 10))).
Proof.
  apply (fast_memcmp_sort_key wasm32 (bytes "abcdefghij") (bytes "abcdefgXij")
           10); simpl; lia.
Defined.

(** X5. On every target [fast_memcmp] orders the buffers of one length
    consistently: from a <= b and b <= c follows a <= c, and a and c
    compare equal only if both steps did.  The function can sort, even
    where its order is not the bytewise one. *)
Theorem fast_memcmp_transitive t a b c len x y :
  (len ≤ length a)%nat → (len ≤ length b)%nat → (len ≤ length c)%nat →
  fast_memcmp t a b len = Some x → fast_memcmp t b c len = Some y →
  x ≤ 0 → y ≤ 0 →
  ∃ z, fast_memcmp t a c len = Some z ∧ z ≤ 0 ∧ (z = 0 → x = 0 ∧ y = 0).
Proof.
  intros Ha Hb Hc. unfold fast_memcmp.
  rewrite !memcmp_words_key by done. intros [= <-] [= <-] Hx Hy.
  eexists. split; [done|].
  apply compare_reference_trans; try done;
    rewrite !word_key_length, !window_length; lia.
Qed.

Lemma fast_memcmp_transitive_witness :
  ∃ z, fast_memcmp wasm32 (bytes "aaaaaaaab") (bytes "aaaaaaabb") 9 = Some z
       ∧ z ≤ 0 ∧ (z = 0 → -1 = 0 ∧ -1 = 0).
Proof.
  apply (fast_memcmp_transitive wasm32
           (bytes "aaaaaaaab") (bytes "aaaaaaaba") (bytes "aaaaaaabb") 9
           (-1) (-1)); (simpl; lia) || reflexivity.
Defined.

Lemma fast_memcmp_big_endian_witness :
  fast_memcmp big_endian64 (bytes "abcdefghij") (bytes "bacdefghij") 10
    = Some (compare_reference (window (bytes "abcdefghij") 0 10)
                              (window (bytes "bacdefghij") 0 10)).
Proof.
  apply (fast_memcmp_big_endian big_endian64
           (bytes "abcdefghij") (bytes "bacdefghij") 10);
    [reflexivity | simpl; lia | simpl; lia].
Defined.

Lemma fast_memcmp_short_witness :
  fast_memcmp wasm32 (bytes "abcdefg") (bytes "bacdefg") 7
    = Some (compare_reference (window (bytes "abcdefg") 0 7)
                              (window (bytes "bacdefg") 0 7)).
Proof.
  apply (fast_memcmp_short wasm32 (bytes "abcdefg") (bytes "bacdefg")
           7); simpl; lia.
Defined.

Lemma fast_memcmp_single_difference_witness :
  fast_memcmp wasm32 (bytes "abcdefghij") (bytes "abcXefghij") 10
    = Some (compare_reference (window (bytes "abcdefghij") 0 10)
                              (window (bytes "abcXefghij") 0 10)).
Proof.
  apply (fast_memcmp_single_difference wasm32
           (bytes "abcdefghij") (bytes "abcXefghij") 10 3);
    [simpl; lia | simpl; lia |].
  intros j Hj Hne.
  do 10 (destruct j as [|j]; [done || reflexivity|]). simpl in Hj. lia.
Defined.

(** ** [find_pattern]: further consequences *)

Lemma find_pattern_answer t haystack haystack_len needle needle_len :
  (haystack_len ≤ length haystack)%nat → (needle_len ≤ length needle)%nat →
  (0 < needle_len ≤ haystack_len)%nat →
  ∃ r, find_pattern t haystack haystack_len needle needle_len = Some r
       ∧ search_answer t haystack needle needle_len 0
           (haystack_len - needle_len + 1) r.
Proof.
  intros Hh Hn Hlen. unfold find_pattern.
  rewrite bool_decide_eq_false_2 by lia.
  case_bool_decide as H8.
  - rewrite pack_loop_window by lia. cbn [mbind option_bind].
    apply (search_small_spec t haystack needle needle_len Hn
             (haystack_len - needle_len + 1) 0); [|done].
    unfold in_haystack. lia.
  - apply (search_large_spec t haystack needle needle_len Hn
             (haystack_len - needle_len + 1) 0).
    unfold in_haystack. lia.
Qed.

(** Two leftmost searches over nested ranges of offsets: when the
    shorter one finds an offset the longer one finds the same. *)
Lemma search_answer_extend t t' haystack needle needle_len hi hi' r r' :
  (hi ≤ hi')%nat →
  search_answer t haystack needle needle_len 0 hi r →
  search_answer t' haystack needle needle_len 0 hi' r' →
  (∃ k, r = Z.of_nat k ∧ (k < hi)%nat
        ∧ matches_at haystack needle needle_len k) →
  r' = r.
Proof.
  intros Hle Hr Hr' (k & -> & Hk & Hm).
  destruct Hr' as [[-> Hno']|(k' & -> & Hk' & Hm' & Hno')].
  - destruct (Hno' k); [lia|done].
  - destruct Hr as [[_ Hno]|(k0 & E & Hk0 & Hm0 & Hno)].
    + destruct (Hno k); [lia|done].
    + apply Nat2Z.inj in E as <-. f_equal.
      destruct (Nat.lt_trichotomy k k') as [H|[H|H]]; [|done|].
      * destruct (Hno' k); [lia|done].
      * destruct (Hno k'); [lia|done].
Qed.

Lemma search_answer_portable t t' haystack needle needle_len hi r r' :
  size_bits t = size_bits t' →
  search_answer t haystack needle needle_len 0 hi r →
  search_answer t' haystack needle needle_len 0 hi r' →
  r' = r.
Proof.
  intros Hsz Hr Hr'.
  destruct Hr as [[-> Hno]|(k & -> & Hk & Hm & Hno)].
  - destruct Hr' as [[-> _]|(k' & -> & Hk' & Hm' & _)].
    + unfold NOT_FOUND. by rewrite Hsz.
    + destruct (Hno k'); done.
  - apply (search_answer_extend t t' haystack needle needle_len hi hi);
      [done| |done|].
    + right. exists k. eauto.
    + exists k. repeat split; [lia|done].
Qed.

Lemma fast_memcmp_matches t haystack needle needle_len j :
  (j + needle_len ≤ length haystack)%nat → (needle_len ≤ length needle)%nat →
  ∃ c, fast_memcmp t (drop j haystack) needle needle_len = Some c
       ∧ (c = 0 ↔ matches_at haystack needle needle_len j).
Proof.
  intros Hh Hn. unfold fast_memcmp.
  destruct (memcmp_words_spec (endian t) (drop j haystack) needle needle_len 0)
    as (c & -> & _ & Hc); [rewrite length_drop; lia|lia|].
  exists c. split; [done|].
  rewrite Hc, matches_at_window. unfold window. by rewrite !drop_0.
Qed.

(** X9. The search does not depend on the byte order of the target nor on
    the SSE4.2 switch: two targets with the same [size_t] return the same
    result, the comparator path using [fast_memcmp] for its equality
    verdict only. *)
Theorem find_pattern_portable t t' haystack haystack_len needle needle_len :
  size_bits t = size_bits t' →
  (haystack_len ≤ length haystack)%nat → (needle_len ≤ length needle)%nat →
  find_pattern t' haystack haystack_len needle needle_len
    = find_pattern t haystack haystack_len needle needle_len.
Proof.
  intros Hsz Hh Hn.
  destruct (decide (needle_len = 0 ∨ haystack_len < needle_len)%nat) as [Hd|Hd].
  - unfold find_pattern, NOT_FOUND. rewrite !bool_decide_eq_true_2 by done.
    by rewrite Hsz.
  - destruct (find_pattern_answer t haystack haystack_len needle needle_len)
      as (r & -> & Hr); [done|done|lia|].
    destruct (find_pattern_answer t' haystack haystack_len needle needle_len)
      as (r' & -> & Hr'); [done|done|lia|].
    f_equal. by eapply search_answer_portable.
Qed.

Lemma find_pattern_portable_witness :
  find_pattern big_endian64 (bytes "hello world, hello world") 24
      (bytes "lo world, hel") 13
    = find_pattern x86_64_sse42 (bytes "hello world, hello world") 24
        (bytes "lo world, hel") 13.
Proof.
  apply (find_pattern_portable x86_64_sse42 big_endian64
           (bytes "hello world, hello world") 24 (bytes "lo world, hel") 13);
    [reflexivity | simpl; lia | simpl; lia].
Defined.

(** X10. An offset the search returns is one where [fast_memcmp] of the
    haystack from that offset with the needle answers 0, and it answers
    non-zero at every smaller offset. *)
Theorem find_pattern_fast_memcmp t haystack haystack_len needle needle_len r :
  (haystack_len ≤ length haystack)%nat → (needle_len ≤ length needle)%nat →
  find_pattern t haystack haystack_len needle needle_len = Some r →
  r ≠ NOT_FOUND t →
  ∃ k, r = Z.of_nat k ∧ (k + needle_len ≤ haystack_len)%nat
       ∧ fast_memcmp t (drop k haystack) needle needle_len = Some 0
       ∧ ∀ j, (j < k)%nat →
           ∃ c, fast_memcmp t (drop j haystack) needle needle_len = Some c
                ∧ c ≠ 0.
Proof.
  intros Hh Hn Hf Hr.
  destruct (decide (needle_len = 0 ∨ haystack_len < needle_len)%nat) as [Hd|Hd].
  { unfold find_pattern in Hf. rewrite bool_decide_eq_true_2 in Hf by done.
    by injection Hf as <-. }
  destruct (find_pattern_answer t haystack haystack_len needle needle_len)
    as (r0 & E & [[-> _]|(k & -> & Hk & Hm & Hno)]); [done|done|lia| |];
    rewrite E in Hf; injection Hf as <-; [done|].
  exists k. split; [done|]. split; [lia|]. split.
  - destruct (fast_memcmp_matches t haystack needle needle_len k)
      as (c & -> & Hc); [lia|done|].
    f_equal. by apply Hc.
  - intros j Hj.
    destruct (fast_memcmp_matches t haystack needle needle_len j)
      as (c & -> & Hc); [lia|done|].
    exists c. split; [done|]. rewrite Hc. apply Hno. lia.
Qed.

Lemma find_pattern_fast_memcmp_witness :
  ∃ k, 3 = Z.of_nat k ∧ (k + 13 ≤ 24)%nat
       ∧ fast_memcmp wasm32 (drop k (bytes "hello world, hello world"))
           (bytes "lo world, hel") 13 = Some 0
       ∧ ∀ j, (j < k)%nat →
           ∃ c, fast_memcmp wasm32 (drop j (bytes "hello world, hello world"))
                  (bytes "lo world, hel") 13 = Some c
                ∧ c ≠ 0.
Proof.
  apply (find_pattern_fast_memcmp wasm32 (bytes "hello world, hello world") 24
           (bytes "lo world, hel") 13 3);
    [simpl; lia | simpl; lia | reflexivity | vm_compute; discriminate].
Defined.

(** X11. A haystack that begins with the needle is answered with offset
    0; in particular a non-empty buffer is found in itself. *)
Theorem find_pattern_prefix t haystack haystack_len needle needle_len :
  (haystack_len ≤ length haystack)%nat → (needle_len ≤ length needle)%nat →
  (0 < needle_len ≤ haystack_len)%nat →
  matches_at haystack needle needle_len 0 →
  find_pattern t haystack haystack_len needle needle_len = Some 0.
Proof.
  intros Hh Hn Hlen Hm.
  destruct (find_pattern_answer t haystack haystack_len needle needle_len)
    as (r & -> & [[-> Hno]|(k & -> & Hk & _ & Hno)]); [done|done|done| |].
  - destruct (Hno 0%nat); [lia|done].
  - destruct k as [|k]; [done|]. destruct (Hno 0%nat); [lia|done].
Qed.

Lemma find_pattern_prefix_witness :
  find_pattern wasm32 (bytes "hello world") 11 (bytes "hello world") 11
    = Some 0.
Proof.
  apply (find_pattern_prefix wasm32 (bytes "hello world") 11
           (bytes "hello world") 11); [simpl; lia | simpl; lia | lia |].
  reflexivity.
Defined.

(** X12. A found offset is stable under a longer haystack: declaring more
    of the same buffer never moves it. *)
Theorem find_pattern_extend t haystack haystack_len haystack_len'
    needle needle_len r :
  (haystack_len ≤ haystack_len' ≤ length haystack)%nat →
  (needle_len ≤ length needle)%nat →
  find_pattern t haystack haystack_len needle needle_len = Some r →
  r ≠ NOT_FOUND t →
  find_pattern t haystack haystack_len' needle needle_len = Some r.
Proof.
  intros Hh Hn Hf Hr.
  destruct (decide (needle_len = 0 ∨ haystack_len < needle_len)%nat) as [Hd|Hd].
  { unfold find_pattern in Hf. rewrite bool_decide_eq_true_2 in Hf by done.
    by injection Hf as <-. }
  destruct (find_pattern_answer t haystack haystack_len needle needle_len)
    as (r0 & E & Hans); [lia|done|lia|].
  rewrite E in Hf. injection Hf as <-.
  destruct (find_pattern_answer t haystack haystack_len' needle needle_len)
    as (r' & -> & Hans'); [lia|done|lia|].
  f_equal.
  apply (search_answer_extend t t haystack needle needle_len
           (haystack_len - needle_len + 1) (haystack_len' - needle_len + 1));
    [lia|done|done|].
  destruct Hans as [[-> _]|(k & -> & Hk & Hm & _)]; [done|].
  exists k. repeat split; [lia|done].
Qed.

Lemma find_pattern_extend_witness :
  find_pattern wasm32 (bytes "hello world") 11 (bytes "lo") 2 = Some 3.
Proof.
  apply (find_pattern_extend wasm32 (bytes "hello world") 5 11 (bytes "lo") 2 3);
    [simpl; lia | simpl; lia | reflexivity | vm_compute; discriminate].
Defined.

(** ** [calculate_entropy]: the histogram and the sum *)

Lemma Zsum_nonneg l : Forall (λ x, 0 ≤ x) l → 0 ≤ Zsum l.
Proof. induction 1 as [|x l Hx _ IH]; simpl; [done|]. unfold Zsum in *. simpl. lia. Qed.

(** Without wrap-around every byte counted adds one to the total. *)
Lemma count_loop_total t data n i counts unique_count counts' unique_count' :
  length counts = 256%nat → Forall (λ c, 0 ≤ c) counts →
  Zsum counts + Z.of_nat n < 2 ^ 32 →
  count_loop t data n i counts unique_count = Some (counts', unique_count') →
  Zsum counts' = Zsum counts + Z.of_nat n.
Proof.
  revert i counts unique_count.
  induction n as [|n IH]; intros i counts u H256 Hnn Hsum; simpl.
  - intros [= <- <-]. lia.
  - destruct (read data i) as [d|] eqn:Hd; [|done]. simpl.
    apply read_Some in Hd as (c & _ & ->). pose proof (u8_range c) as Hu.
    set (k := Z.to_nat (u8 c)).
    assert (Hk : (k < length counts)%nat) by (unfold k; lia).
    destruct (lookup_lt_is_Some_2 counts k Hk) as [old Hold].
    rewrite Hold. simpl.
    assert (0 ≤ old ≤ Zsum counts).
    { split; [by eapply (proj1 (Forall_lookup _ _) Hnn)|].
      apply Zsum_elem; [done|]. by eapply list_elem_of_lookup_2. }
    rewrite (Z.mod_small (old + 1)) by lia.
    intros E. apply IH in E.
    + rewrite E, Zsum_insert, Hold by done. simpl. lia.
    + by rewrite length_insert.
    + apply Forall_insert; [done|lia].
    + rewrite Zsum_insert, Hold by done. simpl. lia.
Qed.

(** X13. The counters of the histogram never add up to more than the
    number of bytes counted, and for a buffer shorter than 2^32 bytes
    they add up to exactly that number. *)
Theorem count_frequencies_total t data len counts :
  count_frequencies t data len = Some counts →
  Zsum counts ≤ Z.of_nat len
  ∧ (Z.of_nat len < 2 ^ 32 → Zsum counts = Z.of_nat len).
Proof.
  intros Hc. split; [by eapply count_frequencies_total_sum|].
  intros Hlen. unfold count_frequencies in Hc.
  destruct (count_loop t data len 0 (replicate 256 0) 0) as [[cs u]|] eqn:E;
    [|done].
  simpl in Hc. injection Hc as <-.
  apply count_loop_total in E; [done| | |done].
  - by rewrite length_replicate.
  - apply Forall_replicate. lia.
Qed.

Lemma count_frequencies_total_witness :
  Zsum (<[104%nat := 1]> (<[101%nat := 1]> (<[108%nat := 2]>
          (<[111%nat := 1]> (replicate 256 0))))) ≤ Z.of_nat 5
  ∧ (Z.of_nat 5 < 2 ^ 32 →
     Zsum (<[104%nat := 1]> (<[101%nat := 1]> (<[108%nat := 2]>
             (<[111%nat := 1]> (replicate 256 0))))) = Z.of_nat 5).
Proof.
  apply (count_frequencies_total wasm32 (bytes "hello") 5). reflexivity.
Defined.

Lemma occurrences_Permutation d l l' :
  l ≡ₚ l' → occurrences d l = occurrences d l'.
Proof. intros H. unfold occurrences. by rewrite H. Qed.

(** The histogram is determined by the occurrences of the byte values. *)
Lemma count_frequencies_occurrences t data data' len :
  (len ≤ length data)%nat → (len ≤ length data')%nat →
  (∀ d, occurrences d (window data 0 len)
        = occurrences d (window data' 0 len)) →
  count_frequencies t data len = count_frequencies t data' len.
Proof.
  intros Hl Hl' Hocc.
  destruct (count_frequencies_mod t data len Hl) as (cs & -> & H256 & Hc).
  destruct (count_frequencies_mod t data' len Hl') as (cs' & -> & H256' & Hc').
  f_equal. apply list_eq. intros k.
  destruct (decide (k < 256)%nat) as [Hk|Hk].
  - rewrite <- (Nat2Z.id k).
    rewrite Hc, Hc', Hocc by (unfold is_u8; lia). done.
  - by rewrite !lookup_ge_None_2 by lia.
Qed.

(** X14. The entropy depends on how often each byte value occurs, not on
    where: two buffers whose first [len] bytes are permutations of each
    other get the same result, whatever the floating-point arithmetic
    does. *)
Theorem calculate_entropy_permutation {F} `{FloatOps F} t data data' len :
  (len ≤ length data)%nat → (len ≤ length data')%nat →
  window data 0 len ≡ₚ window data' 0 len →
  calculate_entropy t data len = calculate_entropy t data' len.
Proof.
  intros Hl Hl' Hp. unfold calculate_entropy.
  rewrite (count_frequencies_occurrences t data data' len); [done|done|done|].
  intros d. by apply occurrences_Permutation.
Qed.

Lemma calculate_entropy_permutation_witness :
  calculate_entropy (F := R) wasm32 (bytes "abX") 2
    = calculate_entropy (F := R) wasm32 (bytes "baY") 2.
Proof.
  apply (calculate_entropy_permutation (F := R) wasm32
           (bytes "abX") (bytes "baY") 2); [simpl; lia | simpl; lia |].
  vm_compute. apply perm_swap.
Defined.

Lemma entropy_loop_split {F} `{FloatOps F} counts len n m i (entropy : F) :
  entropy_loop counts len (n + m) i entropy
    = entropy_loop counts len m (i + n) (entropy_loop counts len n i entropy).
Proof.
  revert i entropy. induction n as [|n IH]; intros i e; simpl.
  - by rewrite Nat.add_0_r.
  - rewrite IH. by replace (S i + n)%nat with (i + S n)%nat by lia.
Qed.

(** Byte values that do not occur leave the running sum as it is. *)
Lemma entropy_loop_zero {F} `{FloatOps F} counts len n i (entropy : F) :
  (∀ j, (i ≤ j < i + n)%nat → default 0 (counts !! j) = 0) →
  entropy_loop counts len n i entropy = entropy.
Proof.
  revert i entropy. induction n as [|n IH]; intros i e Hz; simpl; [done|].
  rewrite (Hz i) by lia. rewrite bool_decide_eq_false_2 by lia.
  apply IH. intros j Hj. apply Hz. lia.
Qed.

Lemma occurrences_replicate d x n :
  occurrences d (replicate n x) = if bool_decide (x = d) then n else 0%nat.
Proof.
  induction n as [|n IH]; [by case_bool_decide|].
  change (replicate (S n) x) with (x :: replicate n x).
  rewrite occurrences_cons, IH. by case_bool_decide.
Qed.

(** X15. For a buffer of one repeated byte value, shorter than 2^32 bytes,
    the second loop subtracts a single term, that of the probability
    [len / len]: the result is [0.0 - p * log2(p)] with
    [p = (double)len / len], whatever the floating-point arithmetic
    does. *)
Theorem calculate_entropy_constant {F} `{FloatOps F} t data len c :
  (0 < len ≤ length data)%nat → Z.of_nat len < 2 ^ 32 →
  (∀ j, (j < len)%nat → data !! j = Some c) →
  calculate_entropy t data len
    = Some (let p := f_div (f_of_u32 (Z.of_nat len)) (f_of_size len) in
            f_sub f_zero (f_mul p (f_log2 p))).
Proof.
  intros [Hpos Hlen] Hsmall Hall.
  destruct (count_frequencies_mod t data len Hlen) as (cs & Hcs & H256 & Hc).
  assert (Hw : window data 0 len = replicate len (u8 c)).
  { apply list_eq. intros j. destruct (decide (j < len)%nat) as [Hj|Hj].
    - rewrite window_lookup, lookup_replicate_2 by done.
      unfold read. simpl. by rewrite (Hall j Hj).
    - rewrite !lookup_ge_None_2; [done| |];
        rewrite ?length_replicate, ?window_length; lia. }
  pose proof (u8_range c) as Hu. set (k := Z.to_nat (u8 c)).
  assert (Hk : cs !! k = Some (Z.of_nat len)).
  { unfold k. rewrite Hc, Hw, occurrences_replicate by done.
    rewrite bool_decide_eq_true_2 by done. f_equal. apply Z.mod_small. lia. }
  assert (Hz : ∀ j, j ≠ k → default 0 (cs !! j) = 0).
  { intros j Hj. destruct (decide (j < 256)%nat) as [Hj'|Hj'].
    - rewrite <- (Nat2Z.id j), Hc, Hw, occurrences_replicate
        by (unfold is_u8; lia).
      rewrite bool_decide_eq_false_2; [done|]. unfold k in Hj. lia.
    - by rewrite lookup_ge_None_2 by lia. }
  unfold calculate_entropy. rewrite bool_decide_eq_false_2 by lia.
  rewrite Hcs. cbn [mbind option_bind]. f_equal.
  replace 256%nat with (k + (1 + (255 - k)))%nat by (unfold k; lia).
  rewrite entropy_loop_split, (entropy_loop_zero cs len k 0)
    by (intros j Hj; apply Hz; lia).
  rewrite entropy_loop_split. simpl entropy_loop at 2.
  rewrite Nat.add_0_l, Hk. simpl.
  rewrite bool_decide_eq_true_2 by lia.
  apply entropy_loop_zero. intros j Hj. apply Hz. lia.
Qed.

Lemma calculate_entropy_constant_witness :
  calculate_entropy (F := R) wasm32 (bytes "aaaa") 4
    = Some (let p := f_div (f_of_u32 (Z.of_nat 4)) (f_of_size 4) in
            f_sub f_zero (f_mul p (f_log2 p))).
Proof.
  apply (calculate_entropy_constant (F := R) wasm32 (bytes "aaaa") 4 "a"%byte);
    [simpl; lia | simpl; lia |].
  intros j Hj. do 4 (destruct j as [|j]; [reflexivity|]). lia.
Defined.

(** ** The operations together *)

(** X16. Buffers that [fast_memcmp] answers equal get the same checksum
    and the same entropy, on every target. *)
Theorem fast_memcmp_equal_checksum {F} `{FloatOps F} t a b len :
  (len ≤ length a)%nat → (len ≤ length b)%nat →
  fast_memcmp t a b len = Some 0 →
  fast_crc32 t a len = fast_crc32 t b len
  ∧ calculate_entropy t a len = calculate_entropy t b len.
Proof.
  intros Ha Hb Hz.
  destruct (memcmp_words_spec (endian t) a b len 0) as (r & E & _ & Hr);
    [done|done|].
  unfold fast_memcmp in Hz. rewrite E in Hz. injection Hz as ->.
  assert (Hag : agree len a b)
    by (apply agree_take, (proj1 (window_inj a b 0 len)), Hr; done).
  split; [by apply fast_crc32_agree | by apply calculate_entropy_agree].
Qed.

Lemma fast_memcmp_equal_checksum_witness :
  fast_crc32 wasm32 (bytes "hello world!") 11
    = fast_crc32 wasm32 (bytes "hello world?") 11
  ∧ calculate_entropy (F := R) wasm32 (bytes "hello world!") 11
    = calculate_entropy (F := R) wasm32 (bytes "hello world?") 11.
Proof.
  apply (fast_memcmp_equal_checksum (F := R) wasm32
           (bytes "hello world!") (bytes "hello world?") 11);
    [simpl; lia | simpl; lia | reflexivity].
Defined.

(** * The entropy value and the formula of the specification *)

Lemma true_counts_length l : length (true_counts l) = 256%nat.
Proof. unfold true_counts. by rewrite length_fmap, length_seq. Qed.

Lemma true_counts_lookup l k :
  (k < 256)%nat →
  true_counts l !! k = Some (Z.of_nat (occurrences (Z.of_nat k) l)).
Proof.
  intros Hk. unfold true_counts.
  by rewrite list_lookup_fmap, lookup_seq_lt.
Qed.

(** Below 2^32 bytes the histogram is that of the true counts. *)
Lemma count_frequencies_true t data len :
  (len ≤ length data)%nat → Z.of_nat len < 2 ^ 32 →
  count_frequencies t data len = Some (true_counts (window data 0 len)).
Proof.
  intros Hlen Hsmall.
  destruct (count_frequencies_mod t data len Hlen) as (cs & -> & H256 & Hc).
  f_equal. apply list_eq. intros k.
  destruct (decide (k < 256)%nat) as [Hk|Hk].
  - rewrite true_counts_lookup by done.
    rewrite <- (Nat2Z.id k) at 1. rewrite Hc by (unfold is_u8; lia).
    f_equal. apply Z.mod_small.
    pose proof (occurrences_le (Z.of_nat k) (window data 0 len)) as Hocc.
    rewrite window_length in Hocc by done. lia.
  - rewrite !lookup_ge_None_2; [done| |]; rewrite ?true_counts_length; lia.
Qed.

Lemma calculate_entropy_true {F} `{FloatOps F} t data len :
  (0 < len ≤ length data)%nat → Z.of_nat len < 2 ^ 32 →
  calculate_entropy t data len
    = Some (entropy_loop (true_counts (window data 0 len)) len 256 0 f_zero).
Proof.
  intros [Hpos Hlen] Hsmall. unfold calculate_entropy.
  rewrite bool_decide_eq_false_2 by lia.
  by rewrite count_frequencies_true.
Qed.

(** Under exact arithmetic the loop over the true counts is the formula. *)
Lemma entropy_loop_shannon l :
  entropy_loop (true_counts l) (length l) 256 0 0%R = shannon_entropy l.
Proof.
  rewrite entropy_loop_exact by (rewrite true_counts_length; lia).
  rewrite drop_0, take_ge by (rewrite true_counts_length; lia).
  unfold shannon_entropy, true_counts. rewrite <- list_fmap_compose.
  match goal with
  | |- (0 - Rsum (?f <$> _) = - Rsum (?g <$> _))%R =>
      assert (E : ∀ v : nat, f v = g v)
  end.
  { intros v. unfold compose, entropy_term, probability.
    rewrite <- INR_IZR_INZ.
    case_bool_decide as H1; case_bool_decide as H2; try done; lia. }
  rewrite (list_fmap_ext _ _ (seq 0 256) (λ _ v _, E v)).
  lra.
Qed.



(** ** Where the value departs from the formula *)

(** A buffer of one repeated byte value whose counter has wrapped: the
    single term is that of the wrapped counter. *)
Lemma calculate_entropy_constant_wrapped {F} `{FloatOps F} t data len c :
  (0 < len ≤ length data)%nat → 0 < Z.of_nat len mod 2 ^ 32 →
  (∀ j, (j < len)%nat → data !! j = Some c) →
  calculate_entropy t data len
    = Some (let p := f_div (f_of_u32 (Z.of_nat len mod 2 ^ 32))
                       (f_of_size len) in
            f_sub f_zero (f_mul p (f_log2 p))).
Proof.
  intros [Hpos Hlen] Hmod Hall.
  destruct (count_frequencies_mod t data len Hlen) as (cs & Hcs & H256 & Hc).
  assert (Hw : window data 0 len = replicate len (u8 c)).
  { apply list_eq. intros j. destruct (decide (j < len)%nat) as [Hj|Hj].
    - rewrite window_lookup, lookup_replicate_2 by done.
      unfold read. simpl. by rewrite (Hall j Hj).
    - rewrite !lookup_ge_None_2; [done| |];
        rewrite ?length_replicate, ?window_length; lia. }
  pose proof (u8_range c) as Hu. set (k := Z.to_nat (u8 c)).
  assert (Hk : cs !! k = Some (Z.of_nat len mod 2 ^ 32)).
  { unfold k. rewrite Hc, Hw, occurrences_replicate by done.
    by rewrite bool_decide_eq_true_2. }
  assert (Hz : ∀ j, j ≠ k → default 0 (cs !! j) = 0).
  { intros j Hj. destruct (decide (j < 256)%nat) as [Hj'|Hj'].
    - rewrite <- (Nat2Z.id j), Hc, Hw, occurrences_replicate
        by (unfold is_u8; lia).
      rewrite bool_decide_eq_false_2; [done|]. unfold k in Hj. lia.
    - by rewrite lookup_ge_None_2 by lia. }
  unfold calculate_entropy. rewrite bool_decide_eq_false_2 by lia.
  rewrite Hcs. cbn [mbind option_bind]. f_equal.
  replace 256%nat with (k + (1 + (255 - k)))%nat by (unfold k; lia).
  rewrite entropy_loop_split, (entropy_loop_zero cs len k 0)
    by (intros j Hj; apply Hz; lia).
  rewrite entropy_loop_split. simpl entropy_loop at 2.
  rewrite Nat.add_0_l, Hk. cbn [default].
  rewrite bool_decide_eq_true_2 by done.
  apply entropy_loop_zero. intros j Hj. apply Hz. lia.
Qed.

Lemma Rsum_zero {A} (f : A → R) l :
  (∀ x, f x = 0%R) → Rsum (f <$> l) = 0%R.
Proof.
  intros Hf. induction l as [|x l IH]; [done|].
  rewrite fmap_cons. change (Rsum (?a :: ?k)) with (a + Rsum k)%R.
  rewrite Hf, IH. lra.
Qed.

(** The formula gives 0 to a buffer of one repeated byte value. *)
Lemma shannon_entropy_constant n x :
  (0 < n)%nat → shannon_entropy (replicate n x) = 0%R.
Proof.
  intros Hn. unfold shannon_entropy. rewrite Rsum_zero; [lra|].
  intros v. unfold probability.
  rewrite occurrences_replicate, length_replicate.
  destruct (bool_decide (x = Z.of_nat v)).
  - rewrite bool_decide_eq_true_2 by lia.
    assert (INR n ≠ 0%R) by (apply not_0_INR; lia).
    replace (INR n / INR n)%R with 1%R by (field; assumption).
    rewrite ln_1. lra.
  - rewrite bool_decide_eq_false_2 by lia. reflexivity.
Qed.

(** From 2^32 + 1 bytes of one value the function, in exact arithmetic,
    returns a positive value where the formula gives 0. *)
Lemma calculate_entropy_wrapped_exact t n c :
  Z.of_nat n = 2 ^ 32 + 1 →
  ∃ h : R, calculate_entropy t (replicate n c) n = Some h
           ∧ (0 < h)%R
           ∧ shannon_entropy (window (replicate n c) 0 n) = 0%R.
Proof.
  intros Hn. eexists. split; [|split].
  - apply (calculate_entropy_constant_wrapped (F := R) t _ n c).
    + rewrite length_replicate. lia.
    + rewrite Hn. done.
    + intros j Hj. by apply lookup_replicate_2.
  - rewrite Hn. change ((2 ^ 32 + 1) mod 2 ^ 32) with 1. cbv zeta.
    change (f_sub f_zero ?x) with (0 - x)%R.
    change (f_div (f_of_u32 1) (f_of_size n)) with (1 / INR n)%R.
    change (f_log2 ?x) with (ln x / ln 2)%R.
    change (f_mul ?x ?y) with (x * y)%R.
    rewrite INR_IZR_INZ, Hn.
    set (N := IZR (2 ^ 32 + 1)).
    assert (HN : (1 < N)%R) by (apply (IZR_lt 1); done).
    assert (Hp : (0 < 1 / N < 1)%R).
    { split; [apply Rdiv_lt_0_compat; lra|].
      apply (Rmult_lt_reg_r N); [lra|].
      unfold Rdiv. rewrite Rmult_assoc, Rinv_l by lra. lra. }
    assert (Hl : (ln (1 / N) < 0)%R)
      by (rewrite <- ln_1; apply ln_increasing; lra).
    pose proof ln_lt_2 as Hln2.
    assert (Hq : (ln (1 / N) / ln 2 < 0)%R).
    { apply (Rmult_lt_reg_r (ln 2)); [lra|].
      unfold Rdiv at 1. rewrite Rmult_assoc, Rinv_l by lra. lra. }
    nra.
  - unfold window. rewrite drop_0, take_replicate, fmap_replicate.
    apply shannon_entropy_constant. lia.
Qed.

(** ** Rounding: a buffer whose entropy is computed above 8 *)

Lemma occurrences_app d l k :
  occurrences d (l ++ k) = (occurrences d l + occurrences d k)%nat.
Proof. unfold occurrences. by rewrite filter_app, length_app. Qed.

Lemma expand_cons r runs :
  expand (r :: runs) = replicate (Z.to_nat r.2) r.1 ++ expand runs.
Proof. reflexivity. Qed.

Lemma length_expand runs :
  Forall (λ r, 0 ≤ r.2) runs →
  Z.of_nat (length (expand runs)) = Zsum (snd <$> runs).
Proof.
  induction 1 as [|r runs Hr _ IH]; [reflexivity|].
  rewrite expand_cons, length_app, length_replicate, Nat2Z.inj_add, IH.
  rewrite fmap_cons. change (Zsum (?a :: ?l)) with (a + Zsum l). lia.
Qed.

Lemma occurrences_expand d runs :
  Forall (λ r, 0 ≤ r.2) runs →
  Z.of_nat (occurrences d (u8 <$> expand runs)) = run_count runs d.
Proof.
  induction 1 as [|r runs Hr _ IH]; [reflexivity|].
  rewrite expand_cons, fmap_app, occurrences_app, fmap_replicate.
  rewrite occurrences_replicate, Nat2Z.inj_add, IH.
  unfold run_count. rewrite fmap_cons.
  change (Zsum (?a :: ?l)) with (a + Zsum l).
  case_bool_decide; lia.
Qed.

Lemma true_counts_expand runs :
  Forall (λ r, 0 ≤ r.2) runs →
  true_counts (u8 <$> expand runs)
    = (λ v : nat, run_count runs (Z.of_nat v)) <$> seq 0 256.
Proof.
  intros H. unfold true_counts. apply list_fmap_ext.
  intros _ v _. by apply occurrences_expand.
Qed.

Lemma skewed_runs_nonneg : Forall (λ r : byte * Z, 0 ≤ r.2) skewed_runs.
Proof. apply (bool_decide_unpack _). vm_compute. reflexivity. Qed.

Lemma skewed_buffer_length : Z.of_nat (length skewed_buffer) = 2 ^ 28 + 5.
Proof.
  unfold skewed_buffer. rewrite length_expand by apply skewed_runs_nonneg.
  vm_compute. reflexivity.
Qed.

Lemma skewed_buffer_counts :
  true_counts (window skewed_buffer 0 (length skewed_buffer)) = skewed_counts.
Proof.
  unfold window. rewrite drop_0, firstn_all. unfold skewed_buffer.
  rewrite true_counts_expand by apply skewed_runs_nonneg.
  vm_compute. reflexivity.
Qed.

(** The loop asks the arithmetic for the length operand and for the
    logarithms of the probabilities of the histogram, and for nothing
    else. *)
Lemma entropy_loop_ext {F} (o o' : FloatOps F) counts len len' n i e :
  @f_of_u32 F o = @f_of_u32 F o' → @f_div F o = @f_div F o' →
  @f_mul F o = @f_mul F o' → @f_sub F o = @f_sub F o' →
  @f_of_size F o len = @f_of_size F o' len' →
  (∀ c, c ∈ counts → 0 < c →
     let p := @f_div F o (@f_of_u32 F o c) (@f_of_size F o len) in
     @f_log2 F o p = @f_log2 F o' p) →
  @entropy_loop F o counts len n i e = @entropy_loop F o' counts len' n i e.
Proof.
  intros Hu Hd Hm Hs Hsz Hl. revert i e.
  induction n as [|n IH]; intros i e; [reflexivity|].
  cbn [entropy_loop]. rewrite <- IH. f_equal.
  destruct (counts !! i) as [c|] eqn:Hc.
  - change (default 0 (Some c)) with c.
    case_bool_decide as Hpos; [|reflexivity].
    assert (E : c ∈ counts) by (by eapply list_elem_of_lookup_2).
    specialize (Hl c E Hpos). cbv zeta in Hl |- *.
    rewrite <- Hu, <- Hd, <- Hm, <- Hs, <- Hsz, <- Hl. reflexivity.
  - change (default 0 None) with 0.
    by rewrite bool_decide_eq_false_2 by lia.
Qed.

(** Whatever [log2] returns within four units in the last place of the
    nearest doubles, the loop ends above 8. *)
Lemma skewed_loop_closed :
  forallb (λ x_low,
    forallb (λ x_high,
      PrimFloat.ltb 8
        (@entropy_loop float (binary64_skewed x_low x_high) skewed_counts
           0%nat 256 0 0%float))
      (within_ulps 4 log2_p_high))
    (within_ulps 4 log2_p_low) = true.
Proof. vm_compute. reflexivity. Qed.

Lemma skewed_loop_overshoot (log2 : float → float) (len : nat) :
  Z.of_nat len = 2 ^ 28 + 5 →
  In (log2 p_low) (within_ulps 4 log2_p_low) →
  In (log2 p_high) (within_ulps 4 log2_p_high) →
  PrimFloat.ltb 8
    (@entropy_loop float (binary64 log2) skewed_counts len 256 0 0%float)
    = true.
Proof.
  intros Hlen Hlow Hhigh.
  rewrite (entropy_loop_ext (binary64 log2)
             (binary64_skewed (log2 p_low) (log2 p_high))
             skewed_counts len 0%nat); try reflexivity.
  - pose proof skewed_loop_closed as H.
    rewrite forallb_forall in H. specialize (H _ Hlow).
    rewrite forallb_forall in H. exact (H _ Hhigh).
  - cbn [f_of_size binary64 binary64_skewed]. by rewrite Hlen.
  - intros c Hc _. cbv zeta.
    cbn [f_div f_of_u32 f_of_size f_log2 binary64 binary64_skewed].
    rewrite Hlen. unfold skewed_counts in Hc.
    apply elem_of_app in Hc as [Hc|Hc]; apply elem_of_replicate in Hc as [-> _].
    + change (PrimFloat.div (double_of_Z (2 ^ 20 + 1))
                (double_of_Z (2 ^ 28 + 5))) with p_high.
      replace (PrimFloat.eqb p_high p_low) with false
        by (vm_compute; reflexivity).
      reflexivity.
    + change (PrimFloat.div (double_of_Z (2 ^ 20)) (double_of_Z (2 ^ 28 + 5)))
        with p_low.
      replace (PrimFloat.eqb p_low p_low) with true
        by (vm_compute; reflexivity).
      reflexivity.
Qed.

(** On [skewed_buffer], 2^28 + 5 bytes, the function returns more than 8
    in binary64 arithmetic. *)
Lemma calculate_entropy_skewed (log2 : float → float) :
  In (log2 p_low) (within_ulps 4 log2_p_low) →
  In (log2 p_high) (within_ulps 4 log2_p_high) →
  ∃ h : float,
    @calculate_entropy float (binary64 log2) wasm32 skewed_buffer
      (length skewed_buffer) = Some h
    ∧ PrimFloat.ltb 8 h = true.
Proof.
  intros Hlow Hhigh. pose proof skewed_buffer_length as Hlen.
  eexists. split.
  - apply (@calculate_entropy_true float (binary64 log2)); [lia|].
    rewrite Hlen. reflexivity.
  - rewrite skewed_buffer_counts.
    by apply skewed_loop_overshoot.
Qed.

